(** * exoplanet.distributions.transforms over the reals

    A shallow embedding of [src/exoplanet/distributions/transforms.py].
    Tensors of floating-point numbers are read as real numbers: a scalar
    is an [R], a 2-vector [y] with entries [y[0]], [y[1]] is a pair, a
    vector along the last axis is a [list R], and a batch of pairs (an
    array of shape [(2, n)]) is a pair of lists.  The elementary functions
    are those of the Standard Library; they are total, so every statement
    below keeps the arguments of [ln], [sqrt] and [/] inside their domains
    by explicit hypotheses. *)

From Stdlib Require Import Reals Lra Lia String List ClassicalEpsilon.
Import ListNotations.

Open Scope R_scope.

(** ** Primitives of [theano.tensor] ([tt]) and [numpy] ([np]) *)

Module tt.

(** [tt.nnet.sigmoid] *)
Definition sigmoid (y : R) : R := 1 / (1 + exp (- y)).

(** [tt.nnet.softplus] *)
Definition softplus (y : R) : R := ln (1 + exp y).

Definition log (x : R) : R := ln x.

Definition abs_ (x : R) : R := Rabs x.

Definition square (x : R) : R := x * x.

(** [tt.sum(v, axis=-1)] of a vector. *)
Definition sum (v : list R) : R := fold_right Rplus 0 v.

(** Comparisons yield a boolean tensor; [switch] selects by it. *)
Definition gt (a b : R) : bool := if Rlt_dec b a then true else false.
Definition le (a b : R) : bool := if Rle_dec a b then true else false.

Definition switch {A : Type} (c : bool) (ift iff : A) : A :=
  if c then ift else iff.

(** [tt.arctan2(y, x)]: the angle of the point [(x, y)], in (-pi, pi]. *)
Definition arctan2 (y x : R) : R :=
  if Rlt_dec 0 x then atan (y / x)
  else if Rlt_dec x 0 then
    if Rle_dec 0 y then atan (y / x) + PI else atan (y / x) - PI
  else if Rlt_dec 0 y then PI / 2
  else if Rlt_dec y 0 then - (PI / 2)
  else 0.

End tt.

(** The logit that [forward] spells out as [log(q) - log(1 - q)]. *)
Definition logit (q : R) : R := tt.log q - tt.log (1 - q).

(** The logit of both entries of a 2-vector. *)
Definition logit2 (y : R * R) : R * R := (logit (fst y), logit (snd y)).

(** The slope of the logistic map, [sigmoid y * (1 - sigmoid y)]. *)
Definition sigmoid_slope (y : R) : R := tt.sigmoid y * (1 - tt.sigmoid y).

(** ** AbsoluteValueTransform *)

Module AbsoluteValueTransform.

Definition backward (y : R) : R :=
  let u := 2 * tt.sigmoid y - 1 in
  tt.abs_ u.

Definition forward (x : R) : R :=
  let q := 0.5 * (x + 1) in
  tt.log q - tt.log (1 - q).

Definition forward_val (x : R) : R :=
  let q := 0.5 * (x + 1) in
  ln q - ln (1 - q).

Definition jacobian_det (y : R) : R :=
  -2 * tt.softplus (- y) - y.

End AbsoluteValueTransform.

(** ** QuadLimbDarkTransform *)

Module QuadLimbDarkTransform.

Definition backward (y : R * R) : R * R :=
  let q := (tt.sigmoid (fst y), tt.sigmoid (snd y)) in
  let sqrtq1 := sqrt (fst q) in
  let twoq2 := 2 * snd q in
  (sqrtq1 * twoq2, sqrtq1 * (1 - twoq2)).

Definition forward (x : R * R) : R * R :=
  let usum := fst x + snd x in
  let q := (usum ^ 2, 0.5 * fst x / usum) in
  (tt.log (fst q) - tt.log (1 - fst q),
   tt.log (snd q) - tt.log (1 - snd q)).

Definition forward_val (x : R * R) : R * R :=
  let usum := fst x + snd x in
  let q := (usum ^ 2, 0.5 * fst x / usum) in
  (ln (fst q) - ln (1 - fst q), ln (snd q) - ln (1 - snd q)).

Definition jacobian_det (y : R * R) : R * R :=
  (-2 * tt.softplus (- fst y) - fst y,
   -2 * tt.softplus (- snd y) - snd y).

End QuadLimbDarkTransform.

(** ** Exceptions *)

Inductive exn : Type :=
| NotImplementedError (msg : string)
| ValueError (msg : string).

(** The outcome of a call that may raise. *)
Inductive result (A : Type) : Type :=
| Ok (a : A)
| Raise (e : exn).

Arguments Ok {A} a.
Arguments Raise {A} e.

(** ** UnitVectorTransform: vectors along the last axis *)

Module UnitVectorTransform.

Definition backward (y : list R) : list R :=
  let norm := sqrt (tt.sum (map tt.square y)) in
  map (fun v => v / norm) y.

Definition forward (x : list R) : list R := x.

Definition forward_val (x : list R) : list R := x.

Definition jacobian_det (y : list R) : R :=
  -0.5 * tt.sum (map tt.square y).

End UnitVectorTransform.

(** ** UnitDiskTransform *)

Module UnitDiskTransform.

Definition backward (y : R * R) : R * R :=
  (fst y, snd y * sqrt (1 - fst y ^ 2)).

Definition forward (x : R * R) : R * R :=
  (fst x, snd x / sqrt (1 - fst x ^ 2)).

Definition forward_val (x : R * R) : R * R :=
  (fst x, snd x / sqrt (1 - fst x ^ 2)).

Definition jacobian_det (y : R * R) : R * R :=
  (0, 0.5 * tt.log (1 - fst y ^ 2)).

End UnitDiskTransform.

(** ** AngleTransform *)

Module AngleTransform.

(** [regularized] is a number or [None]; the default is [10.0]. *)
Record t : Type := { regularized : option R }.

Definition __init__ (regularized : option (option R)) : t :=
  {| AngleTransform.regularized :=
       match regularized with Some r => r | None => Some 10.0 end |}.

Definition backward (y : R * R) : R := tt.arctan2 (fst y) (snd y).

Definition forward (x : R) : R * R := (sin x, cos x).

Definition forward_val (x : R) : R * R := (sin x, cos x).

Definition jacobian_det (self : t) (y : R * R) : R :=
  let sm := tt.square (fst y) + tt.square (snd y) in
  match regularized self with
  | Some r => r * tt.log sm - 0.5 * sm
  | None => -0.5 * sm
  end.

End AngleTransform.

(** ** PeriodicTransform *)

Module PeriodicTransform.

Record t : Type := { mid : R; delta : R; regularized : option R }.

Definition __init__ (lower upper : R) (regularized : option (option R)) : t :=
  {| mid := 0.5 * (lower + upper);
     delta := 0.5 * (upper - lower) / PI;
     PeriodicTransform.regularized :=
       match regularized with Some r => r | None => Some 10.0 end |}.

Definition backward (self : t) (y : R * R) : R :=
  mid self + delta self * tt.arctan2 (fst y) (snd y).

Definition forward (self : t) (x : R) : R * R :=
  let a := (x - mid self) / delta self in
  (sin a, cos a).

Definition forward_val (self : t) (x : R) : R * R :=
  let a := (x - mid self) / delta self in
  (sin a, cos a).

Definition jacobian_det (self : t) (y : R * R) : R :=
  let sm := tt.square (fst y) + tt.square (snd y) in
  match regularized self with
  | Some r => r * tt.log sm - 0.5 * sm
  | None => -0.5 * sm
  end.

End PeriodicTransform.

(** ** Boolean masks of [numpy] *)

Module np.

(** [v[m]]: the entries of [v] where the mask holds. *)
Fixpoint select {A : Type} (m : list bool) (v : list A) : list A :=
  match m, v with
  | c :: m', a :: v' => if c then a :: select m' v' else select m' v'
  | _, _ => []
  end.

(** [r[m] = vals]: the entries of [r] where the mask holds are replaced,
    in order, by [vals]; the assignment is refused when [vals] has not
    one value per selected entry. *)
Fixpoint assign {A : Type} (r : list A) (m : list bool) (vals : list A)
  : option (list A) :=
  match r, m with
  | a :: r', c :: m' =>
      if c then
        match vals with
        | v :: vals' => option_map (cons v) (assign r' m' vals')
        | [] => None
        end
      else option_map (cons a) (assign r' m' vals)
  | [], [] => match vals with [] => Some [] | _ :: _ => None end
  | _, _ => None
  end.

(** [~m] *)
Definition invert (m : list bool) : list bool := map negb m.

(** The array that holds the entries of [a] where the mask holds and
    those of [b] elsewhere. *)
Fixpoint merge {A : Type} (m : list bool) (a b : list A) : list A :=
  match m, a, b with
  | c :: m', x :: a', y :: b' => (if c then x else y) :: merge m' a' b'
  | _, _, _ => []
  end.

End np.

(** ** RadiusImpactTransform *)

Module RadiusImpactTransform.

Record t : Type :=
  { min_radius : R; max_radius : R; dr : R; Ar : R }.

(** The constructor: it stores the two radii and derives [dr] and [Ar];
    its body has no [raise]. *)
Definition __init__ (min_radius max_radius : R) : result t :=
  let dr := max_radius - min_radius in
  let denom := 2 + min_radius + max_radius in
  Ok {| RadiusImpactTransform.min_radius := min_radius;
        RadiusImpactTransform.max_radius := max_radius;
        RadiusImpactTransform.dr := dr;
        RadiusImpactTransform.Ar := dr / denom |}.

(** The two branches of [backward], on [r1 = sigmoid y[0]] and
    [r2 = sigmoid y[1]]: the pairs [(p1, b1)] and [(p2, b2)]. *)
Definition backward_A (self : t) (r1 r2 : R) : R * R :=
  let pl := min_radius self in
  let b1 := (1 + pl) * (1 + (r1 - 1) / (1 - Ar self)) in
  let p1 := pl + r2 * dr self in
  (p1, b1).

Definition backward_B (self : t) (r1 r2 : R) : R * R :=
  let pl := min_radius self in
  let pu := max_radius self in
  let q1 := r1 / Ar self in
  let q2 := r2 in
  let b2 := (1 + pl) + sqrt q1 * q2 * dr self in
  let p2 := pu - dr self * sqrt q1 * (1 - q2) in
  (p2, b2).

Definition backward (self : t) (y : R * R) : R * R :=
  let r1 := tt.sigmoid (fst y) in
  let r2 := tt.sigmoid (snd y) in
  tt.switch (tt.gt r1 (Ar self))
    (backward_A self r1 r2) (backward_B self r1 r2).

(** The two branches of [forward], before the logit: [(r11, r21)] and
    [(r12, r22)]. *)
Definition forward_A (self : t) (p b : R) : R * R :=
  let pl := min_radius self in
  let r11 := (b / (1 + pl) - 1) * (1 - Ar self) + 1 in
  let r21 := (p - pl) / dr self in
  (r11, r21).

Definition forward_B (self : t) (p b : R) : R * R :=
  let pl := min_radius self in
  let arg := p - b - dr self + 1 in
  let q1 := (arg / dr self) ^ 2 in
  let q2 := (pl - b + 1) / arg in
  let r12 := q1 * Ar self in
  let r22 := q2 in
  (r12, r22).

Definition forward (self : t) (x : R * R) : R * R :=
  let p := fst x in
  let b := snd x in
  let y := tt.switch (tt.le b 1) (forward_A self p b) (forward_B self p b) in
  (tt.log (fst y) - tt.log (1 - fst y),
   tt.log (snd y) - tt.log (1 - snd y)).

(** [forward] on a batch: an array of shape [(2, n)], the row [x[0]] of
    the [p] and the row [x[1]] of the [b]; every operation of [forward]
    is elementwise, so entry [i] of the result is [forward] of entry [i]. *)
Definition forward_batch (self : t) (x : list R * list R)
  : list R * list R :=
  let rows := map (forward self) (combine (fst x) (snd x)) in
  (map fst rows, map snd rows).

(** [forward_val] on a batch, with concrete radii ([draw_values] returns
    them as they are).  [r] is the array [np.empty_like(x)], whose
    entries are whatever the allocation holds. *)
Definition forward_val (self : t) (x : list R * list R)
    (r : list R * list R) : option (list R * list R) :=
  let p := fst x in
  let b := snd x in
  let pl := min_radius self in
  let Ar := Ar self in
  let dr := dr self in
  let m := map (fun bi => tt.le bi 1) b in
  let nm := np.invert m in
  match
    np.assign (fst r) m
      (map (fun bi => (bi / (1 + pl) - 1) * (1 - Ar) + 1) (np.select m b))
  with
  | None => None
  | Some r0 =>
    match
      np.assign (snd r) m (map (fun pi => (pi - pl) / dr) (np.select m p))
    with
    | None => None
    | Some r1 =>
      let arg :=
        map (fun pb => fst pb - snd pb - dr + 1)
            (combine (np.select nm p) (np.select nm b)) in
      let q1 := map (fun a => (a / dr) ^ 2) arg in
      let q2 :=
        map (fun ba => (pl - fst ba + 1) / snd ba)
            (combine (np.select nm b) arg) in
      match np.assign r0 nm (map (fun q => q * Ar) q1) with
      | None => None
      | Some r0' =>
        match np.assign r1 nm q2 with
        | None => None
        | Some r1' =>
            Some (map (fun v => ln v - ln (1 - v)) r0',
                  map (fun v => ln v - ln (1 - v)) r1')
        end
      end
    end
  end.

Definition jacobian_det (y : R * R) : R * R :=
  (-2 * tt.softplus (- fst y) - fst y,
   -2 * tt.softplus (- snd y) - snd y).

End RadiusImpactTransform.

(** ** The base classes of [pymc3.distributions.transforms]

    [ImpactParameterTransform] extends [tr.LogOdds], which extends
    [tr.ElemwiseTransform]; neither class is part of this repository.
    They are written here as the library defines them: the elementwise
    log-Jacobian is the logarithm of the absolute gradient of the
    [backward] of the object it is called on, and [LogOdds] is the
    logit / inverse-logit pair. *)

(** The gradient of a scalar map at a point, when it exists. *)
Definition gradient (f : R -> R) (x : R) : R :=
  epsilon (inhabits 0) (fun l => derivable_pt_lim f x l).

Module ElemwiseTransform.

(** [jacobian_det(self, x)]: [log(abs(gradient(self.backward(x), x)))];
    [self_backward] is the [backward] of the receiving object. *)
Definition jacobian_det (self_backward : R -> R) (x : R) : R :=
  tt.log (tt.abs_ (gradient self_backward x)).

End ElemwiseTransform.

Module LogOdds.

Definition invlogit (x eps : R) : R :=
  (1 - 2 * eps) / (1 + exp (- x)) + eps.

Definition backward (x : R) : R := invlogit x 0.

Definition forward (x : R) : R := tt.log (x / (1 - x)).

Definition forward_val (x : R) : R := ln (x / (1 - x)).

Definition jacobian_det (x : R) : R :=
  ElemwiseTransform.jacobian_det backward x.

End LogOdds.

(** ** ImpactParameterTransform *)

Module ImpactParameterTransform.

Record t : Type := { one_plus_ror : R }.

Definition __init__ (ror : R) : t := {| one_plus_ror := 1 + ror |}.

Definition backward (self : t) (x : R) : R :=
  let bhat := LogOdds.backward x in
  bhat * one_plus_ror self.

Definition backward_val (self : t) (x : R) : result R :=
  Raise (NotImplementedError
    "backward_val isn't implemented for the impact parameter transform").

Definition forward (self : t) (x : R) : R :=
  LogOdds.forward (x / one_plus_ror self).

Definition forward_val (self : t) (x : R) : R :=
  let opror := one_plus_ror self in
  LogOdds.forward_val (x / opror).

(** The inherited [jacobian_det] runs on [self], hence on the
    [backward] of this class. *)
Definition jacobian_det (self : t) (y : R) : R :=
  let jac := ElemwiseTransform.jacobian_det (backward self) y in
  jac - tt.log (one_plus_ror self).

End ImpactParameterTransform.

(** ** Facts about the primitives *)

Section Sigmoid.

Lemma sigmoid_denominator_pos (y : R) : 0 < 1 + exp (- y).
Proof. pose proof (exp_pos (- y)); lra. Qed.

Lemma sigmoid_pos (y : R) : 0 < tt.sigmoid y.
Proof.
  unfold tt.sigmoid. apply Rdiv_lt_0_compat; [lra|].
  apply sigmoid_denominator_pos.
Qed.

Lemma sigmoid_lt_1 (y : R) : tt.sigmoid y < 1.
Proof.
  unfold tt.sigmoid.
  pose proof (exp_pos (- y)) as He.
  apply Rmult_lt_reg_r with (1 + exp (- y)); [lra|].
  unfold Rdiv. rewrite Rmult_assoc, Rinv_l by lra. lra.
Qed.

Lemma sigmoid_range (y : R) : 0 < tt.sigmoid y < 1.
Proof. split; [apply sigmoid_pos | apply sigmoid_lt_1]. Qed.

Lemma sigmoid_0 : tt.sigmoid 0 = 1 / 2.
Proof.
  unfold tt.sigmoid. rewrite Ropp_0, exp_0. lra.
Qed.

(** [sigmoid] undoes [logit] on the open unit interval. *)
Lemma sigmoid_logit (q : R) : 0 < q < 1 -> tt.sigmoid (logit q) = q.
Proof.
  intros [Hq0 Hq1]. unfold tt.sigmoid, logit, tt.log.
  replace (- (ln q - ln (1 - q))) with (ln (1 - q) - ln q) by lra.
  unfold Rminus at 1. rewrite exp_plus, exp_Ropp, !exp_ln by lra.
  field. lra.
Qed.

End Sigmoid.

(** ** AbsoluteValueTransform: range of [backward] *)

(** C10: for every real [y], [backward y = |2*sigmoid(y) - 1|] lies in
    [[0, 1)]; in particular it is never negative, so no point of the
    negative half of (-1, 1) is produced. *)
Theorem AbsoluteValue_backward_range (y : R) :
  0 <= AbsoluteValueTransform.backward y < 1 /\
  ~ AbsoluteValueTransform.backward y < 0.
Proof.
  unfold AbsoluteValueTransform.backward, tt.abs_.
  pose proof (sigmoid_range y) as [H0 H1].
  assert (Hr : 0 <= Rabs (2 * tt.sigmoid y - 1) < 1).
  { split; [apply Rabs_pos|]. apply Rabs_def1; lra. }
  split; [exact Hr | lra].
Qed.

(** ** QuadLimbDarkTransform at the origin *)

Lemma sqrt_half_sqr : sqrt (1 / 2) * sqrt (1 / 2) = 1 / 2.
Proof. apply sqrt_def; lra. Qed.

Lemma sqrt_half_neq_half : sqrt (1 / 2) <> 0.5.
Proof.
  intros H. pose proof sqrt_half_sqr as Hs. rewrite H in Hs. lra.
Qed.

(** C3, as stated, fails: the first entry of [backward (0, 0)] is
    [sqrt (1/2)], which is not [0.5]. *)
Lemma QuadLimbDark_backward_origin_not_half :
  QuadLimbDarkTransform.backward (0, 0) <> (0.5, 0).
Proof.
  unfold QuadLimbDarkTransform.backward. cbn [fst snd].
  rewrite sigmoid_0. intros H.
  apply (f_equal fst) in H. cbn [fst] in H.
  apply sqrt_half_neq_half. lra.
Qed.

(** C3, amended: [backward] applied to the 2-vector [(0, 0)] returns
    [(sqrt 0.5, 0)]: [sigmoid 0 = 0.5], [sqrtq1 = sqrt 0.5], [twoq2 = 1]. *)
Theorem QuadLimbDark_backward_origin :
  QuadLimbDarkTransform.backward (0, 0) = (sqrt (1 / 2), 0).
Proof.
  unfold QuadLimbDarkTransform.backward. cbn [fst snd].
  rewrite sigmoid_0. f_equal; lra.
Qed.

(** ** Derivative of the logistic map *)

Section SigmoidDerivative.

Lemma derivable_pt_lim_sigmoid (y : R) :
  derivable_pt_lim tt.sigmoid y (tt.sigmoid y * (1 - tt.sigmoid y)).
Proof.
  pose proof (sigmoid_denominator_pos y) as Hd.
  assert (Hneg : derivable_pt_lim (comp exp (opp_fct id)) y
                   (exp (- y) * - 1)).
  { apply derivable_pt_lim_comp.
    - apply derivable_pt_lim_opp, derivable_pt_lim_id.
    - apply derivable_pt_lim_exp. }
  assert (Hden : derivable_pt_lim
                   (plus_fct (fct_cte 1) (comp exp (opp_fct id))) y
                   (0 + exp (- y) * - 1)).
  { apply derivable_pt_lim_plus; [apply derivable_pt_lim_const | exact Hneg]. }
  pose proof (derivable_pt_lim_div (fct_cte 1) _ y 0 _
                (derivable_pt_lim_const 1 y) Hden) as Hq.
  unfold plus_fct, fct_cte, comp, opp_fct, id in Hq.
  specialize (Hq (Rgt_not_eq _ _ Hd)).
  replace (tt.sigmoid y * (1 - tt.sigmoid y))
    with ((0 * (1 + exp (- y)) - (0 + exp (- y) * -1) * 1)
            / Rsqr (1 + exp (- y))).
  - exact Hq.
  - unfold tt.sigmoid, Rsqr. field. lra.
Qed.

(** The sign of [2 * sigmoid y - 1] is the sign of [y]. *)
Lemma sigmoid_gt_half (y : R) : 0 < y -> 1 / 2 < tt.sigmoid y.
Proof.
  intros Hy. unfold tt.sigmoid.
  assert (He : exp (- y) < 1).
  { rewrite <- exp_0. apply exp_increasing. lra. }
  pose proof (exp_pos (- y)) as Hp.
  apply Rmult_lt_reg_r with (1 + exp (- y)); [lra|].
  unfold Rdiv at 2. rewrite Rmult_assoc, Rinv_l by lra. lra.
Qed.

Lemma sigmoid_lt_half (y : R) : y < 0 -> tt.sigmoid y < 1 / 2.
Proof.
  intros Hy. unfold tt.sigmoid.
  assert (He : 1 < exp (- y)).
  { rewrite <- exp_0. apply exp_increasing. lra. }
  apply Rmult_lt_reg_r with (1 + exp (- y)); [lra|].
  unfold Rdiv at 1. rewrite Rmult_assoc, Rinv_l by lra. lra.
Qed.

(** [u = 2 * sigmoid y - 1], the argument of [abs_] in
    [AbsoluteValueTransform.backward]. *)
Lemma derivable_pt_lim_two_sigmoid_minus_1 (y : R) :
  derivable_pt_lim (fun z => 2 * tt.sigmoid z - 1) y
    (2 * (tt.sigmoid y * (1 - tt.sigmoid y))).
Proof.
  pose proof (derivable_pt_lim_minus _ _ y _ _
                (derivable_pt_lim_scal _ 2 y _ (derivable_pt_lim_sigmoid y))
                (derivable_pt_lim_const 1 y)) as H.
  rewrite Rminus_0_r in H. exact H.
Qed.

End SigmoidDerivative.

(** ** AbsoluteValueTransform: the log-Jacobian *)

Section AbsoluteValueJacobian.

Import AbsoluteValueTransform.

Lemma sigmoid_slope_pos (y : R) : 0 < sigmoid_slope y.
Proof.
  unfold sigmoid_slope. pose proof (sigmoid_range y) as [H0 H1].
  apply Rmult_lt_0_compat; lra.
Qed.

(** [-2 * softplus (-y) - y] is the logarithm of the logistic slope. *)
Lemma logistic_jacobian (y : R) :
  -2 * tt.softplus (- y) - y = ln (sigmoid_slope y).
Proof.
  pose proof (sigmoid_denominator_pos y) as Hd.
  pose proof (exp_pos (- y)) as He.
  unfold sigmoid_slope, tt.softplus, tt.sigmoid.
  replace (1 / (1 + exp (- y)) * (1 - 1 / (1 + exp (- y))))
    with (exp (- y) * (/ (1 + exp (- y)) * / (1 + exp (- y))))
    by (field; lra).
  assert (Hi : 0 < / (1 + exp (- y))) by (apply Rinv_0_lt_compat; lra).
  rewrite ln_mult; [| lra | apply Rmult_lt_0_compat; lra].
  rewrite ln_mult by lra.
  rewrite ln_exp, ln_Rinv by lra. lra.
Qed.

Lemma jacobian_det_slope (y : R) : jacobian_det y = ln (sigmoid_slope y).
Proof. apply logistic_jacobian. Qed.

Lemma derivable_pt_lim_backward_pos (y : R) :
  0 < y -> derivable_pt_lim backward y (2 * sigmoid_slope y).
Proof.
  intros Hy. pose proof (sigmoid_gt_half y Hy) as Hs.
  assert (Hu : 0 < 2 * tt.sigmoid y - 1) by lra.
  pose proof (derivable_pt_lim_comp (fun z => 2 * tt.sigmoid z - 1) Rabs y _ _
                (derivable_pt_lim_two_sigmoid_minus_1 y)
                (Rabs_derive_1 _ Hu)) as H.
  rewrite Rmult_1_l in H. exact H.
Qed.

Lemma derivable_pt_lim_backward_neg (y : R) :
  y < 0 -> derivable_pt_lim backward y (- (2 * sigmoid_slope y)).
Proof.
  intros Hy. pose proof (sigmoid_lt_half y Hy) as Hs.
  assert (Hu : 2 * tt.sigmoid y - 1 < 0) by lra.
  pose proof (derivable_pt_lim_comp (fun z => 2 * tt.sigmoid z - 1) Rabs y _ _
                (derivable_pt_lim_two_sigmoid_minus_1 y)
                (Rabs_derive_2 _ Hu)) as H.
  replace (- (2 * sigmoid_slope y))
    with (-1 * (2 * (tt.sigmoid y * (1 - tt.sigmoid y))))
    by (unfold sigmoid_slope; lra).
  exact H.
Qed.

(** [backward] has a corner at the origin. *)
Lemma backward_not_derivable_at_0 (d : R) : ~ derivable_pt_lim backward 0 d.
Proof.
  intros Hd.
  pose proof (derivable_pt_lim_two_sigmoid_minus_1 0) as Hu.
  rewrite sigmoid_0 in Hu.
  destruct (Hd (1 / 4) ltac:(lra)) as [d1 H1].
  destruct (Hu (1 / 4) ltac:(lra)) as [d2 H2].
  set (h := Rmin d1 d2 / 2).
  assert (Hh : 0 < h).
  { unfold h. pose proof (cond_pos d1). pose proof (cond_pos d2).
    apply Rdiv_lt_0_compat; [apply Rmin_pos; assumption | lra]. }
  assert (Hh1 : h < d1).
  { unfold h. pose proof (Rmin_l d1 d2). pose proof (cond_pos d1).
    pose proof (cond_pos d2).
    pose proof (Rmin_pos d1 d2 ltac:(assumption) ltac:(assumption)). lra. }
  assert (Hh2 : h < d2).
  { unfold h. pose proof (Rmin_r d1 d2). pose proof (cond_pos d1).
    pose proof (cond_pos d2).
    pose proof (Rmin_pos d1 d2 ltac:(assumption) ltac:(assumption)). lra. }
  assert (Hb0 : backward 0 = 0).
  { unfold backward, tt.abs_. rewrite sigmoid_0.
    replace (2 * (1 / 2) - 1) with 0 by lra. apply Rabs_R0. }
  rewrite sigmoid_0 in H2.
  (* to the right of the origin *)
  assert (Hp := H1 h ltac:(lra) ltac:(rewrite Rabs_pos_eq; lra)).
  assert (Hpu := H2 h ltac:(lra) ltac:(rewrite Rabs_pos_eq; lra)).
  (* to the left of the origin *)
  assert (Hn := H1 (- h) ltac:(lra)
                  ltac:(rewrite Rabs_Ropp, Rabs_pos_eq; lra)).
  assert (Hnu := H2 (- h) ltac:(lra)
                   ltac:(rewrite Rabs_Ropp, Rabs_pos_eq; lra)).
  rewrite Hb0, !Rplus_0_l in Hp, Hn.
  rewrite !Rplus_0_l in Hpu, Hnu.
  unfold backward, tt.abs_ in Hp, Hn.
  pose proof (sigmoid_gt_half h Hh) as Hsp.
  pose proof (sigmoid_lt_half (- h) ltac:(lra)) as Hsn.
  rewrite (Rabs_pos_eq (2 * tt.sigmoid h - 1)) in Hp by lra.
  rewrite (Rabs_left (2 * tt.sigmoid (- h) - 1)) in Hn by lra.
  replace (2 * (1 / 2) - 1) with 0 in Hpu, Hnu by lra.
  replace ((- (2 * tt.sigmoid (- h) - 1) - 0) / - h)
    with (- ((2 * tt.sigmoid (- h) - 1 - 0) / - h)) in Hn
    by (field; lra).
  apply Rabs_def2 in Hp, Hpu, Hn, Hnu. lra.
Qed.

Lemma derivable_pt_lim_backward_abs (y d : R) :
  derivable_pt_lim backward y d -> Rabs d = 2 * sigmoid_slope y.
Proof.
  intros Hd. pose proof (sigmoid_slope_pos y) as Hs.
  destruct (Rtotal_order y 0) as [Hy | [Hy | Hy]].
  - rewrite (uniqueness_limite _ _ _ _ Hd (derivable_pt_lim_backward_neg y Hy)).
    rewrite Rabs_Ropp. apply Rabs_pos_eq. lra.
  - subst y. destruct (backward_not_derivable_at_0 d Hd).
  - rewrite (uniqueness_limite _ _ _ _ Hd (derivable_pt_lim_backward_pos y Hy)).
    apply Rabs_pos_eq. lra.
Qed.

End AbsoluteValueJacobian.

Lemma ln_2_pos : 0 < ln 2.
Proof. rewrite <- ln_1. apply ln_increasing; lra. Qed.

(** C4, as stated, fails at [y = 1]: there [backward] has the derivative
    [2 * sigmoid 1 * (1 - sigmoid 1)], and [jacobian_det 1] is not the
    logarithm of its absolute value. *)
Lemma AbsoluteValue_jacobian_det_not_log_derivative :
  derivable_pt_lim AbsoluteValueTransform.backward 1 (2 * sigmoid_slope 1) /\
  AbsoluteValueTransform.jacobian_det 1 <> ln (Rabs (2 * sigmoid_slope 1)).
Proof.
  split.
  - apply derivable_pt_lim_backward_pos. lra.
  - pose proof (sigmoid_slope_pos 1) as Hs. pose proof ln_2_pos as H2.
    rewrite jacobian_det_slope, Rabs_pos_eq by lra.
    rewrite ln_mult by lra. lra.
Qed.

(** C4, amended: wherever [backward] has a derivative [d] at [y], the
    value [jacobian_det y = -2 * softplus (-y) - y] is [log |d| - log 2]:
    it is the logarithm of the logistic slope, without the factor 2 of
    [y -> |2 * sigmoid y - 1|]. *)
Theorem AbsoluteValue_jacobian_det_log_derivative (y d : R)
    (Hd : derivable_pt_lim AbsoluteValueTransform.backward y d) :
  AbsoluteValueTransform.jacobian_det y = ln (Rabs d) - ln 2.
Proof.
  pose proof (sigmoid_slope_pos y) as Hs.
  rewrite (derivable_pt_lim_backward_abs y d Hd), jacobian_det_slope.
  rewrite ln_mult by lra. lra.
Qed.

Lemma AbsoluteValue_jacobian_det_log_derivative_witness :
  derivable_pt_lim AbsoluteValueTransform.backward 1 (2 * sigmoid_slope 1) /\
  AbsoluteValueTransform.jacobian_det 1
  = ln (Rabs (2 * sigmoid_slope 1)) - ln 2.
Proof.
  assert (H : derivable_pt_lim AbsoluteValueTransform.backward 1
                (2 * sigmoid_slope 1)).
  { apply derivable_pt_lim_backward_pos. lra. }
  split; [exact H |].
  exact (AbsoluteValue_jacobian_det_log_derivative 1 _ H).
Defined.

(** ** RadiusImpactTransform: the constructed object *)

Section RadiusImpactGeometry.

Import RadiusImpactTransform.

Variables (pl pu : R) (self : t).
Hypothesis radii : 0 <= pl < pu.
Hypothesis constructed : __init__ pl pu = Ok self.

Lemma init_min_radius : min_radius self = pl.
Proof using constructed.
  unfold __init__ in constructed. injection constructed as <-. reflexivity.
Qed.

Lemma init_max_radius : max_radius self = pu.
Proof using constructed.
  unfold __init__ in constructed. injection constructed as <-. reflexivity.
Qed.

Lemma init_dr : dr self = pu - pl.
Proof using constructed.
  unfold __init__ in constructed. injection constructed as <-. reflexivity.
Qed.

Lemma init_Ar : Ar self = (pu - pl) / (2 + pl + pu).
Proof using constructed.
  unfold __init__ in constructed. injection constructed as <-. reflexivity.
Qed.

Lemma dr_pos : 0 < dr self.
Proof using radii constructed. rewrite init_dr. lra. Qed.

Lemma Ar_range : 0 < Ar self < 1.
Proof using radii constructed.
  rewrite init_Ar. split.
  - apply Rdiv_lt_0_compat; lra.
  - apply Rmult_lt_reg_r with (2 + pl + pu); [lra|].
    unfold Rdiv. rewrite Rmult_assoc, Rinv_l by lra. lra.
Qed.

(** [Ar * (2 + pl + pu) = dr], free of division. *)
Lemma Ar_denom : Ar self * (2 + pl + pu) = pu - pl.
Proof using radii constructed.
  rewrite init_Ar. field. lra.
Qed.

(** *** The branches of [backward] at [r1 = Ar] *)

Lemma backward_A_at_Ar (r2 : R) :
  backward_A self (Ar self) r2 = (pl + r2 * dr self, 0).
Proof using radii constructed.
  pose proof Ar_range as [HA0 HA1].
  unfold backward_A. rewrite init_min_radius. f_equal.
  field. lra.
Qed.

Lemma backward_B_at_Ar (r2 : R) :
  backward_B self (Ar self) r2
  = (pl + r2 * dr self, 1 + (pl + r2 * dr self)).
Proof using radii constructed.
  pose proof Ar_range as [HA0 HA1].
  unfold backward_B. rewrite init_min_radius, init_max_radius.
  replace (Ar self / Ar self) with 1 by (field; lra).
  rewrite sqrt_1, init_dr. f_equal; lra.
Qed.

(** *** The branches of [forward] at [b = 1] *)

Lemma forward_A_snd_range (p b : R) :
  pl < p < pu -> 0 < snd (forward_A self p b) < 1.
Proof using radii constructed.
  intros [Hp0 Hp1]. unfold forward_A. cbn [snd].
  rewrite init_min_radius, init_dr. split.
  - apply Rdiv_lt_0_compat; lra.
  - apply Rmult_lt_reg_r with (pu - pl); [lra|].
    unfold Rdiv. rewrite Rmult_assoc, Rinv_l by lra. lra.
Qed.

Lemma forward_B_snd_at_1 (p : R) :
  pl < p < pu -> ~ 0 < snd (forward_B self p 1) < 1.
Proof using radii constructed.
  intros [Hp0 Hp1] [H0 H1]. unfold forward_B in H0, H1. cbn [snd] in H0, H1.
  rewrite init_min_radius, init_dr in H0, H1.
  replace (pl - 1 + 1) with pl in H0, H1 by lra.
  set (arg := p - 1 - (pu - pl) + 1) in *.
  destruct (Rtotal_order arg 0) as [Ha | [Ha | Ha]].
  - assert (Hi : / arg < 0) by (apply Rinv_lt_0_compat; exact Ha).
    unfold Rdiv in H0. nra.
  - rewrite Ha in H0. unfold Rdiv in H0. rewrite Rinv_0 in H0. lra.
  - apply (Rmult_lt_compat_r arg) in H1; [| exact Ha].
    unfold Rdiv in H1. rewrite Rmult_assoc, Rinv_l in H1 by lra.
    unfold arg in H1. lra.
Qed.

End RadiusImpactGeometry.

(** ** RadiusImpactTransform: the branch boundaries *)

Lemma logit_pos (q : R) : 1 / 2 < q < 1 -> 0 < logit q.
Proof.
  intros [H0 H1]. unfold logit, tt.log.
  assert (ln (1 - q) < ln q) by (apply ln_increasing; lra). lra.
Qed.

Lemma logit_neg (q : R) : 0 < q < 1 / 2 -> logit q < 0.
Proof.
  intros [H0 H1]. unfold logit, tt.log.
  assert (ln q < ln (1 - q)) by (apply ln_increasing; lra). lra.
Qed.

Lemma RadiusImpact_forward_logit2 (self : RadiusImpactTransform.t) (x : R * R) :
  RadiusImpactTransform.forward self x
  = logit2 (tt.switch (tt.le (snd x) 1)
              (RadiusImpactTransform.forward_A self (fst x) (snd x))
              (RadiusImpactTransform.forward_B self (fst x) (snd x))).
Proof. reflexivity. Qed.

(** C1, as stated, fails for [min_radius = 0.1], [max_radius = 0.3]: at
    [r1 = Ar], [r2 = 0.5] the two branches of [backward] give different
    pairs, and at [p = 0.25], [b = 1] the two branches of [forward] give
    different [y]. *)
Lemma RadiusImpact_branches_disagree :
  exists self : RadiusImpactTransform.t,
    RadiusImpactTransform.__init__ (1 / 10) (3 / 10) = Ok self /\
    RadiusImpactTransform.backward_A self (RadiusImpactTransform.Ar self) (1 / 2)
    <> RadiusImpactTransform.backward_B self (RadiusImpactTransform.Ar self) (1 / 2) /\
    logit2 (RadiusImpactTransform.forward_A self (1 / 4) 1)
    <> logit2 (RadiusImpactTransform.forward_B self (1 / 4) 1).
Proof.
  eexists. split; [reflexivity |].
  assert (Hr : 0 <= 1 / 10 < 3 / 10) by lra.
  split.
  - rewrite (backward_A_at_Ar _ _ _ Hr eq_refl),
            (backward_B_at_Ar _ _ _ Hr eq_refl).
    intros H. apply (f_equal snd) in H. cbn in H. lra.
  - unfold logit2, RadiusImpactTransform.forward_A,
           RadiusImpactTransform.forward_B.
    cbn [fst snd RadiusImpactTransform.min_radius RadiusImpactTransform.Ar
         RadiusImpactTransform.dr].
    intros H. apply (f_equal fst) in H. cbn [fst] in H.
    replace ((1 / (1 + 1 / 10) - 1)
             * (1 - (3 / 10 - 1 / 10) / (2 + 1 / 10 + 3 / 10)) + 1)
      with (11 / 12) in H by (field; lra).
    replace (((1 / 4 - 1 - (3 / 10 - 1 / 10) + 1) / (3 / 10 - 1 / 10)) ^ 2
             * ((3 / 10 - 1 / 10) / (2 + 1 / 10 + 3 / 10)))
      with (1 / 192) in H by (field; lra).
    pose proof (logit_pos (11 / 12) ltac:(lra)).
    pose proof (logit_neg (1 / 192) ltac:(lra)).
    lra.
Qed.

(** C1, amended: for [0 <= min_radius < max_radius], at the backward
    boundary [r1 = Ar] both branches give the same [p = pl + r2 * dr], but
    branch A gives [b = 0] and branch B gives [b = 1 + p]; at the forward
    boundary [b = 1], for every [p] between the radii, the second entry of
    branch A lies in (0, 1) and that of branch B does not, so the branches
    give different [y]. *)
Theorem RadiusImpact_branch_boundaries
    (pl pu : R) (self : RadiusImpactTransform.t)
    (radii : 0 <= pl < pu)
    (constructed : RadiusImpactTransform.__init__ pl pu = Ok self) :
  (forall r2 : R,
      RadiusImpactTransform.backward_A self (RadiusImpactTransform.Ar self) r2
      = (pl + r2 * RadiusImpactTransform.dr self, 0) /\
      RadiusImpactTransform.backward_B self (RadiusImpactTransform.Ar self) r2
      = (pl + r2 * RadiusImpactTransform.dr self,
         1 + (pl + r2 * RadiusImpactTransform.dr self))) /\
  (forall p : R, pl < p < pu ->
      0 < snd (RadiusImpactTransform.forward_A self p 1) < 1 /\
      ~ 0 < snd (RadiusImpactTransform.forward_B self p 1) < 1).
Proof.
  split.
  - intros r2. split.
    + apply (backward_A_at_Ar pl pu); assumption.
    + apply (backward_B_at_Ar pl pu); assumption.
  - intros p Hp. split.
    + apply (forward_A_snd_range pl pu); assumption.
    + apply (forward_B_snd_at_1 pl pu); assumption.
Qed.

Lemma RadiusImpact_branch_boundaries_witness :
  exists self : RadiusImpactTransform.t,
    RadiusImpactTransform.__init__ 0 (1 / 5) = Ok self /\
    RadiusImpactTransform.backward_A self (RadiusImpactTransform.Ar self) (1 / 2)
    = (0 + 1 / 2 * RadiusImpactTransform.dr self, 0) /\
    ~ 0 < snd (RadiusImpactTransform.forward_B self (1 / 10) 1) < 1.
Proof.
  eexists. split; [reflexivity |].
  assert (Hr : 0 <= 0 < 1 / 5) by lra.
  destruct (RadiusImpact_branch_boundaries 0 (1 / 5) _ Hr eq_refl) as [Hb Hf].
  split.
  - exact (proj1 (Hb (1 / 2))).
  - apply Hf. lra.
Defined.

(** ** RadiusImpactTransform: construction *)

(** C8, as stated, fails: with [max_radius = 0 <= min_radius = 1] the
    constructor returns an object. *)
Lemma RadiusImpact_init_accepts_reversed_radii :
  RadiusImpactTransform.__init__ 1 0
  = Ok {| RadiusImpactTransform.min_radius := 1;
          RadiusImpactTransform.max_radius := 0;
          RadiusImpactTransform.dr := 0 - 1;
          RadiusImpactTransform.Ar := (0 - 1) / (2 + 1 + 0) |}.
Proof. reflexivity. Qed.

(** C8, amended: the constructor validates nothing; for every pair of
    radii, also with [max_radius <= min_radius], it returns the object
    holding the radii, [dr = max_radius - min_radius] and
    [Ar = dr / (2 + min_radius + max_radius)], and never raises. *)
Theorem RadiusImpact_init_total (min_radius max_radius : R) :
  RadiusImpactTransform.__init__ min_radius max_radius
  = Ok {| RadiusImpactTransform.min_radius := min_radius;
          RadiusImpactTransform.max_radius := max_radius;
          RadiusImpactTransform.dr := max_radius - min_radius;
          RadiusImpactTransform.Ar :=
            (max_radius - min_radius) / (2 + min_radius + max_radius) |} /\
  forall e : exn,
    RadiusImpactTransform.__init__ min_radius max_radius <> Raise e.
Proof.
  split; [reflexivity | intros e H; discriminate H].
Qed.

(** ** RadiusImpactTransform: the image of [backward] *)

Section RadiusImpactBackward.

Import RadiusImpactTransform.

Variables (pl pu : R) (self : t).
Hypothesis radii : 0 <= pl < pu.
Hypothesis constructed : __init__ pl pu = Ok self.

(** Branch A, taken when [Ar < r1]. *)
Lemma backward_A_region (r1 r2 : R) :
  Ar self < r1 < 1 -> 0 < r2 < 1 ->
  pl < fst (backward_A self r1 r2) < pu /\
  0 < snd (backward_A self r1 r2) < 1 + pl.
Proof using radii constructed.
  intros [Hr1 Hr1'] [Hr2 Hr2'].
  pose proof (Ar_range pl pu self radii constructed) as [HA0 HA1].
  unfold backward_A. cbn [fst snd].
  rewrite (init_min_radius pl pu), (init_dr pl pu) by assumption.
  split; [nra |].
  set (k := (r1 - 1) / (1 - Ar self)).
  assert (Hk : -1 < k < 0).
  { unfold k. split.
    - apply Rmult_lt_reg_r with (1 - Ar self); [lra|].
      unfold Rdiv. rewrite Rmult_assoc, Rinv_l by lra. lra.
    - apply Rmult_lt_reg_r with (1 - Ar self); [lra|].
      unfold Rdiv. rewrite Rmult_assoc, Rinv_l by lra. lra. }
  nra.
Qed.

(** Branch B, taken when [r1 <= Ar]. *)
Lemma sqrt_ratio_range (r1 : R) :
  0 < r1 <= Ar self -> 0 < sqrt (r1 / Ar self) <= 1.
Proof using radii constructed.
  intros [Hr1 Hr1'].
  pose proof (Ar_range pl pu self radii constructed) as [HA0 HA1].
  assert (Hq : 0 < r1 / Ar self <= 1).
  { split.
    - apply Rdiv_lt_0_compat; lra.
    - apply Rmult_le_reg_r with (Ar self); [lra|].
      unfold Rdiv. rewrite Rmult_assoc, Rinv_l by lra. lra. }
  split.
  - apply sqrt_lt_R0. lra.
  - rewrite <- sqrt_1. apply sqrt_le_1; lra.
Qed.

Lemma sqrt_ratio_1 (r1 : R) :
  0 < r1 -> (sqrt (r1 / Ar self) = 1 <-> r1 = Ar self).
Proof using radii constructed.
  intros Hr1.
  pose proof (Ar_range pl pu self radii constructed) as [HA0 HA1].
  split.
  - intros Hs.
    assert (Hq : 0 <= r1 / Ar self).
    { apply Rlt_le, Rdiv_lt_0_compat; lra. }
    pose proof (sqrt_def _ Hq) as Hd. rewrite Hs in Hd.
    assert (He : r1 = r1 / Ar self * Ar self) by (field; lra).
    rewrite <- Hd in He. lra.
  - intros ->. replace (Ar self / Ar self) with 1 by (field; lra).
    apply sqrt_1.
Qed.

Lemma backward_B_region (r1 r2 : R) :
  0 < r1 <= Ar self -> 0 < r2 < 1 ->
  pl < fst (backward_B self r1 r2) < pu /\
  0 < snd (backward_B self r1 r2) <= 1 + fst (backward_B self r1 r2) /\
  (snd (backward_B self r1 r2) = 1 + fst (backward_B self r1 r2)
   <-> r1 = Ar self).
Proof using radii constructed.
  intros Hr1 [Hr2 Hr2'].
  pose proof (sqrt_ratio_range r1 Hr1) as [Hs0 Hs1].
  pose proof (sqrt_ratio_1 r1 (proj1 Hr1)) as Hs.
  unfold backward_B. cbn [fst snd].
  rewrite (init_min_radius pl pu), (init_max_radius pl pu), (init_dr pl pu)
    by assumption.
  set (s := sqrt (r1 / Ar self)) in *.
  assert (Hd : 0 < pu - pl) by lra.
  assert (H1 : 0 < s * (1 - r2) < 1) by nra.
  assert (H2 : 0 < s * r2) by nra.
  split; [nra |]. split; [nra |].
  rewrite <- Hs. split; intros H; nra.
Qed.

Lemma backward_region (y : R * R) :
  pl < fst (backward self y) < pu /\
  0 < snd (backward self y) <= 1 + fst (backward self y) /\
  (snd (backward self y) = 1 + fst (backward self y)
   <-> tt.sigmoid (fst y) = Ar self).
Proof using radii constructed.
  pose proof (sigmoid_range (fst y)) as [H10 H11].
  pose proof (sigmoid_range (snd y)) as H2.
  unfold backward, tt.switch, tt.gt.
  destruct (Rlt_dec (Ar self) (tt.sigmoid (fst y))) as [Hgt | Hle].
  - destruct (backward_A_region (tt.sigmoid (fst y)) (tt.sigmoid (snd y)))
      as [Hp Hb]; [lra | exact H2 |].
    split; [exact Hp |]. split; [lra |]. split; intros H; lra.
  - apply backward_B_region; [lra | exact H2].
Qed.

End RadiusImpactBackward.

Lemma sigmoid_neg_ln (c : R) : 0 < c -> tt.sigmoid (- ln c) = 1 / (1 + c).
Proof.
  intros Hc. unfold tt.sigmoid. rewrite Ropp_involutive, exp_ln by lra.
  reflexivity.
Qed.

(** C5, as stated, fails for [min_radius = 0], [max_radius = 0.2] at
    [y = (- ln 10, 0)]: there [sigmoid y[0] = Ar = 1/11], branch B is
    taken and gives [p = 0.1], [b = 1.1 = 1 + p], so [b < 1 + p] is
    false. *)
Lemma RadiusImpact_backward_reaches_grazing_edge :
  exists self : RadiusImpactTransform.t,
    RadiusImpactTransform.__init__ 0 (1 / 5) = Ok self /\
    RadiusImpactTransform.backward self (- ln 10, 0) = (1 / 10, 11 / 10) /\
    ~ snd (RadiusImpactTransform.backward self (- ln 10, 0))
      < 1 + fst (RadiusImpactTransform.backward self (- ln 10, 0)).
Proof.
  eexists. split; [reflexivity |].
  assert (Hb : RadiusImpactTransform.backward
                 {| RadiusImpactTransform.min_radius := 0;
                    RadiusImpactTransform.max_radius := 1 / 5;
                    RadiusImpactTransform.dr := 1 / 5 - 0;
                    RadiusImpactTransform.Ar := (1 / 5 - 0) / (2 + 0 + 1 / 5) |}
                 (- ln 10, 0) = (1 / 10, 11 / 10)).
  { unfold RadiusImpactTransform.backward, tt.switch, tt.gt.
    cbn [fst snd RadiusImpactTransform.Ar].
    rewrite sigmoid_neg_ln, sigmoid_0 by lra.
    destruct (Rlt_dec ((1 / 5 - 0) / (2 + 0 + 1 / 5)) (1 / (1 + 10)))
      as [Hlt | _]; [exfalso; lra |].
    unfold RadiusImpactTransform.backward_B.
    cbn [RadiusImpactTransform.min_radius RadiusImpactTransform.max_radius
         RadiusImpactTransform.dr RadiusImpactTransform.Ar].
    replace (1 / (1 + 10) / ((1 / 5 - 0) / (2 + 0 + 1 / 5))) with 1
      by (field; lra).
    rewrite sqrt_1. f_equal; lra. }
  split; [exact Hb |]. rewrite Hb. cbn [fst snd]. lra.
Qed.

(** C5, amended: for [0 <= min_radius < max_radius], [backward] is
    defined at every real 2-vector [y] (its divisors [1 - Ar] and [Ar] are
    not zero and the argument of its square root is not negative) and its
    output satisfies [min_radius < p < max_radius] and [0 < b <= 1 + p];
    [b = 1 + p] holds exactly when [sigmoid y[0] = Ar], and [b < 1 + p]
    everywhere else. *)
Theorem RadiusImpact_backward_in_region
    (pl pu : R) (self : RadiusImpactTransform.t) (y : R * R)
    (radii : 0 <= pl < pu)
    (constructed : RadiusImpactTransform.__init__ pl pu = Ok self) :
  (1 - RadiusImpactTransform.Ar self <> 0 /\
   RadiusImpactTransform.Ar self <> 0 /\
   0 <= tt.sigmoid (fst y) / RadiusImpactTransform.Ar self) /\
  pl < fst (RadiusImpactTransform.backward self y) < pu /\
  0 < snd (RadiusImpactTransform.backward self y)
    <= 1 + fst (RadiusImpactTransform.backward self y) /\
  (snd (RadiusImpactTransform.backward self y)
   = 1 + fst (RadiusImpactTransform.backward self y)
   <-> tt.sigmoid (fst y) = RadiusImpactTransform.Ar self).
Proof.
  pose proof (Ar_range pl pu self radii constructed) as [HA0 HA1].
  pose proof (sigmoid_pos (fst y)) as Hs.
  split.
  - repeat split; try lra.
    apply Rlt_le, Rdiv_lt_0_compat; lra.
  - apply (backward_region pl pu); assumption.
Qed.

Lemma RadiusImpact_backward_in_region_witness :
  exists self : RadiusImpactTransform.t,
    RadiusImpactTransform.__init__ 0 (1 / 5) = Ok self /\
    0 < fst (RadiusImpactTransform.backward self (0, 0)) < 1 / 5 /\
    0 < snd (RadiusImpactTransform.backward self (0, 0))
      <= 1 + fst (RadiusImpactTransform.backward self (0, 0)).
Proof.
  eexists. split; [reflexivity |].
  assert (Hr : 0 <= 0 < 1 / 5) by lra.
  destruct (RadiusImpact_backward_in_region 0 (1 / 5) _ (0, 0) Hr eq_refl)
    as (_ & Hp & Hb & _).
  split; [exact Hp | exact Hb].
Defined.

(** ** ImpactParameterTransform *)

Section ImpactParameter.

Import ImpactParameterTransform.

Lemma gradient_eq (f : R -> R) (x l : R) :
  derivable_pt_lim f x l -> gradient f x = l.
Proof.
  intros Hl. unfold gradient.
  apply (uniqueness_limite f x); [| exact Hl].
  apply epsilon_spec. exists l. exact Hl.
Qed.

Lemma LogOdds_backward_sigmoid (x : R) : LogOdds.backward x = tt.sigmoid x.
Proof.
  unfold LogOdds.backward, LogOdds.invlogit, tt.sigmoid.
  pose proof (sigmoid_denominator_pos x). field. lra.
Qed.

Lemma derivable_pt_lim_LogOdds_backward (y : R) :
  derivable_pt_lim LogOdds.backward y (sigmoid_slope y).
Proof.
  apply (derivable_pt_lim_ext tt.sigmoid).
  - intros z. symmetry. apply LogOdds_backward_sigmoid.
  - apply derivable_pt_lim_sigmoid.
Qed.

Lemma LogOdds_jacobian_det_slope (y : R) :
  LogOdds.jacobian_det y = ln (sigmoid_slope y).
Proof.
  unfold LogOdds.jacobian_det, ElemwiseTransform.jacobian_det, tt.log, tt.abs_.
  rewrite (gradient_eq _ _ _ (derivable_pt_lim_LogOdds_backward y)).
  rewrite Rabs_pos_eq; [reflexivity |].
  apply Rlt_le, sigmoid_slope_pos.
Qed.

(** The gradient of the rescaled [backward] carries the factor
    [1 + ror]. *)
Lemma derivable_pt_lim_backward (self : t) (y : R) :
  derivable_pt_lim (backward self) y (sigmoid_slope y * one_plus_ror self).
Proof.
  pose proof (derivable_pt_lim_mult _ _ y _ _
                (derivable_pt_lim_LogOdds_backward y)
                (derivable_pt_lim_const (one_plus_ror self) y)) as H.
  unfold fct_cte in H. rewrite Rmult_0_r, Rplus_0_r in H. exact H.
Qed.

Lemma inherited_jacobian_det (self : t) (y : R) :
  0 < one_plus_ror self ->
  ElemwiseTransform.jacobian_det (backward self) y
  = LogOdds.jacobian_det y + ln (one_plus_ror self).
Proof.
  intros Hr. pose proof (sigmoid_slope_pos y) as Hs.
  rewrite LogOdds_jacobian_det_slope.
  unfold ElemwiseTransform.jacobian_det, tt.log, tt.abs_.
  rewrite (gradient_eq _ _ _ (derivable_pt_lim_backward self y)).
  rewrite Rabs_pos_eq by (apply Rlt_le, Rmult_lt_0_compat; lra).
  apply ln_mult; lra.
Qed.

Lemma jacobian_det_LogOdds (self : t) (y : R) :
  0 < one_plus_ror self -> jacobian_det self y = LogOdds.jacobian_det y.
Proof.
  intros Hr. unfold jacobian_det, tt.log.
  rewrite inherited_jacobian_det by exact Hr. lra.
Qed.

End ImpactParameter.

(** C7, as stated, fails in its third part for [ror = 1] at [y = 0]:
    [jacobian_det 0] is the plain [LogOdds] log-Jacobian at [0], not that
    value minus [log 2]. *)
Lemma ImpactParameter_jacobian_det_not_shifted :
  ImpactParameterTransform.jacobian_det (ImpactParameterTransform.__init__ 1) 0
  <> LogOdds.jacobian_det 0 - tt.log (1 + 1).
Proof.
  rewrite jacobian_det_LogOdds by (cbn; lra).
  unfold tt.log. replace (1 + 1) with 2 by lra.
  pose proof ln_2_pos. lra.
Qed.

(** C7, amended: for a radius ratio [ror > -1], [backward y] is the
    [LogOdds] backward of [y] times [1 + ror]; [forward x] is the
    [LogOdds] forward of [x / (1 + ror)]; and [jacobian_det y] is the
    inherited elementwise log-Jacobian of this transform's own [backward]
    at [y] minus [log (1 + ror)], which equals the [LogOdds] log-Jacobian
    at [y] itself, the two [log (1 + ror)] terms cancelling. *)
Theorem ImpactParameter_methods (ror x y : R) (Hror : -1 < ror) :
  let self := ImpactParameterTransform.__init__ ror in
  ImpactParameterTransform.backward self y = LogOdds.backward y * (1 + ror) /\
  ImpactParameterTransform.forward self x = LogOdds.forward (x / (1 + ror)) /\
  ImpactParameterTransform.jacobian_det self y
  = ElemwiseTransform.jacobian_det (ImpactParameterTransform.backward self) y
    - tt.log (1 + ror) /\
  ElemwiseTransform.jacobian_det (ImpactParameterTransform.backward self) y
  = LogOdds.jacobian_det y + tt.log (1 + ror) /\
  ImpactParameterTransform.jacobian_det self y = LogOdds.jacobian_det y.
Proof.
  intros self.
  assert (Hr : 0 < ImpactParameterTransform.one_plus_ror self) by (cbn; lra).
  split; [reflexivity |]. split; [reflexivity |]. split; [reflexivity |].
  split.
  - apply (inherited_jacobian_det self y Hr).
  - apply (jacobian_det_LogOdds self y Hr).
Qed.

Lemma ImpactParameter_methods_witness :
  ImpactParameterTransform.jacobian_det (ImpactParameterTransform.__init__ 1) 0
  = LogOdds.jacobian_det 0.
Proof.
  assert (Hror : -1 < 1) by lra.
  exact (proj2 (proj2 (proj2 (proj2
           (ImpactParameter_methods 1 (1 / 2) 0 Hror))))).
Defined.

(** C9: for every input [x], [backward_val x] raises
    [NotImplementedError] and returns no value. *)
Theorem ImpactParameter_backward_val_raises
    (self : ImpactParameterTransform.t) (x : R) :
  ImpactParameterTransform.backward_val self x
  = Raise (NotImplementedError
      "backward_val isn't implemented for the impact parameter transform") /\
  forall v : R, ImpactParameterTransform.backward_val self x <> Ok v.
Proof.
  split; [reflexivity | intros v H; discriminate H].
Qed.

(** ** Boolean masks: selection and assignment *)

Section Masks.

Context {A B : Type}.

Lemma select_map (f : A -> B) (m : list bool) (l : list A) :
  np.select m (map f l) = map f (np.select m l).
Proof.
  revert l. induction m as [| c m IH]; intros [| a l]; cbn; try reflexivity.
  destruct c; cbn; rewrite IH; reflexivity.
Qed.

Lemma select_combine (m : list bool) (a : list A) (b : list B) :
  combine (np.select m a) (np.select m b) = np.select m (combine a b).
Proof.
  revert a b. induction m as [| c m IH]; intros a b; [reflexivity |].
  destruct a as [| x a], b as [| y b]; cbn.
  - reflexivity.
  - reflexivity.
  - destruct c; cbn; [reflexivity | apply combine_nil].
  - destruct c; cbn; rewrite IH; reflexivity.
Qed.

Lemma merge_length (m : list bool) (a b : list A) :
  length a = length m -> length b = length m ->
  length (np.merge m a b) = length m.
Proof.
  revert a b. induction m as [| c m IH]; intros [| x a] [| y b] Ha Hb;
    cbn in *; try discriminate; try reflexivity.
  rewrite IH by lia. reflexivity.
Qed.

(** [r[m] = v[m]] succeeds and merges [v] into [r]. *)
Lemma assign_select (r v : list A) (m : list bool) :
  length r = length m -> length v = length m ->
  np.assign r m (np.select m v) = Some (np.merge m v r).
Proof.
  revert r v. induction m as [| c m IH]; intros [| a r] [| x v] Hr Hv;
    cbn in *; try discriminate; try reflexivity.
  destruct c; cbn; rewrite IH by lia; reflexivity.
Qed.

(** Filling the complement of the mask afterwards forgets [r]. *)
Lemma merge_invert (m : list bool) (a b r : list A) :
  length a = length m -> length b = length m -> length r = length m ->
  np.merge (np.invert m) a (np.merge m b r) = np.merge m b a.
Proof.
  revert a b r. induction m as [| c m IH]; intros [| x a] [| y b] [| z r];
    intros Ha Hb Hr; cbn in *; try discriminate; try reflexivity.
  rewrite IH by lia. destruct c; reflexivity.
Qed.

End Masks.

Lemma merge_map {X A : Type} (c : X -> bool) (f g : X -> A) (l : list X) :
  np.merge (map c l) (map f l) (map g l)
  = map (fun x => if c x then f x else g x) l.
Proof.
  induction l as [| x l IH]; cbn; [reflexivity |]. rewrite IH. reflexivity.
Qed.

Lemma combine_map_fst_snd {A B : Type} (a : list A) (b : list B) :
  length a = length b ->
  map fst (combine a b) = a /\ map snd (combine a b) = b.
Proof.
  revert b. induction a as [| x a IH]; intros [| y b] H; cbn in *;
    try discriminate; [split; reflexivity |].
  destruct (IH b) as [H1 H2]; [lia |]. rewrite H1, H2. split; reflexivity.
Qed.

Lemma combine_fst_snd {A B : Type} (l : list (A * B)) :
  combine (map fst l) (map snd l) = l.
Proof.
  induction l as [| [a b] l IH]; cbn; [reflexivity |].
  rewrite IH. reflexivity.
Qed.

Lemma combine_map_map {X A B : Type} (f : X -> A) (g : X -> B) (l : list X) :
  combine (map f l) (map g l) = map (fun x => (f x, g x)) l.
Proof.
  induction l as [| x l IH]; cbn; [reflexivity |]. rewrite IH. reflexivity.
Qed.

Lemma invert_length (m : list bool) : length (np.invert m) = length m.
Proof. apply length_map. Qed.

(** ** RadiusImpactTransform: the numeric path *)

Section RadiusImpactForwardVal.

Import RadiusImpactTransform.

Variable self : t.

(** [forward_val] on the rows of a list of pairs. *)
Lemma forward_val_rows (pb : list (R * R)) (r0 r1 : list R) :
  length r0 = length pb -> length r1 = length pb ->
  forward_val self (map fst pb, map snd pb) (r0, r1)
  = Some (map fst (map (forward self) pb), map snd (map (forward self) pb)).
Proof.
  intros H0 H1. unfold forward_val. cbn [fst snd].
  set (m := map (fun bi : R => tt.le bi 1) (map snd pb)).
  assert (Hm : length m = length pb)
    by (unfold m; rewrite !length_map; reflexivity).
  rewrite <- !select_map, select_combine.
  rewrite <- !select_map.
  rewrite assign_select by (rewrite ?length_map; lia).
  rewrite assign_select by (rewrite ?length_map; lia).
  rewrite combine_fst_snd, select_combine, <- select_map.
  assert (Hlen : forall (X : Type) (f : X -> R) (l : list X) (r : list R),
             length l = length pb -> length r = length pb ->
             length (np.merge m (map f l) r) = length (np.invert m)).
  { intros X f l r Hl Hr.
    rewrite merge_length, invert_length by (rewrite ?length_map; lia).
    reflexivity. }
  assert (Hc : length (combine (map snd pb)
                   (map (fun pb0 : R * R => fst pb0 - snd pb0 - dr self + 1) pb))
               = length (np.invert m)).
  { rewrite length_combine, !length_map, invert_length, Nat.min_id.
    symmetry. exact Hm. }
  rewrite (assign_select _ _ (np.invert m));
    [| apply Hlen; [rewrite length_map; reflexivity | exact H0]
     | rewrite !length_map, invert_length; symmetry; exact Hm ].
  rewrite (assign_select _ _ (np.invert m));
    [| apply Hlen; [rewrite length_map; reflexivity | exact H1]
     | rewrite length_map; exact Hc ].
  rewrite !merge_invert
    by (rewrite ?length_map, ?length_combine, ?length_map, ?Nat.min_id; lia).
  rewrite combine_map_map. unfold m. rewrite !map_map, !merge_map, !map_map.
  f_equal. f_equal; apply map_ext; intros [p b];
    unfold forward, forward_A, forward_B, tt.switch, tt.log; cbn [fst snd];
    destruct (tt.le b 1); reflexivity.
Qed.

(** On a batch given by its two rows. *)
Lemma forward_val_batch (p b r0 r1 : list R) :
  length p = length b -> length r0 = length b -> length r1 = length b ->
  forward_val self (p, b) (r0, r1) = Some (forward_batch self (p, b)).
Proof.
  intros Hp H0 H1.
  destruct (combine_map_fst_snd p b Hp) as [Ep Eb].
  assert (Hl : length (combine p b) = length b).
  { rewrite length_combine, Hp, Nat.min_id. reflexivity. }
  unfold forward_batch. cbn [fst snd].
  rewrite <- (forward_val_rows (combine p b) r0 r1) by lia.
  rewrite Ep, Eb. reflexivity.
Qed.

End RadiusImpactForwardVal.

Lemma forward_batch_nth (self : RadiusImpactTransform.t) (p b : list R) (i : nat) :
  length p = length b -> (i < length b)%nat ->
  (nth i (fst (RadiusImpactTransform.forward_batch self (p, b))) 0,
   nth i (snd (RadiusImpactTransform.forward_batch self (p, b))) 0)
  = RadiusImpactTransform.forward self (nth i p 0, nth i b 0).
Proof.
  intros Hp Hi. unfold RadiusImpactTransform.forward_batch. cbn [fst snd].
  assert (Hl : (i < length (map (RadiusImpactTransform.forward self)
                              (combine p b)))%nat).
  { rewrite length_map, length_combine, Hp, Nat.min_id. exact Hi. }
  set (d := RadiusImpactTransform.forward self (0, 0)).
  rewrite (nth_indep (map fst _) 0 (fst d)) by (rewrite length_map; exact Hl).
  rewrite (nth_indep (map snd _) 0 (snd d)) by (rewrite length_map; exact Hl).
  rewrite !map_nth. unfold d. rewrite map_nth, combine_nth by exact Hp.
  symmetry. apply surjective_pairing.
Qed.

(** C6: for concrete radii and every batch [x] of pairs (rows [p] and [b]
    of one length), whatever the freshly allocated array [r] holds,
    [forward_val] returns a value, that value is [forward] applied to the
    batch, and its entry [i] is [forward] of the pair [(p[i], b[i])]: both
    paths branch on [b[i] <= 1] per element and use the same formulas. *)
Theorem RadiusImpact_forward_val_agrees
    (self : RadiusImpactTransform.t) (p b r0 r1 : list R)
    (Hp : length p = length b)
    (H0 : length r0 = length b) (H1 : length r1 = length b) :
  RadiusImpactTransform.forward_val self (p, b) (r0, r1)
  = Some (RadiusImpactTransform.forward_batch self (p, b)) /\
  forall i : nat, (i < length b)%nat ->
    (nth i (fst (RadiusImpactTransform.forward_batch self (p, b))) 0,
     nth i (snd (RadiusImpactTransform.forward_batch self (p, b))) 0)
    = RadiusImpactTransform.forward self (nth i p 0, nth i b 0).
Proof.
  split.
  - apply forward_val_batch; assumption.
  - intros i Hi. apply forward_batch_nth; assumption.
Qed.

Lemma RadiusImpact_forward_val_agrees_witness :
  exists self : RadiusImpactTransform.t,
    RadiusImpactTransform.__init__ 0 (1 / 5) = Ok self /\
    RadiusImpactTransform.forward_val self
      ([1 / 10; 1 / 10], [1 / 2; 11 / 10]) ([0; 0], [0; 0])
    = Some (RadiusImpactTransform.forward_batch self
              ([1 / 10; 1 / 10], [1 / 2; 11 / 10])).
Proof.
  eexists. split; [reflexivity |].
  exact (proj1 (RadiusImpact_forward_val_agrees _
                  [1 / 10; 1 / 10] [1 / 2; 11 / 10] [0; 0] [0; 0]
                  eq_refl eq_refl eq_refl)).
Defined.

(** ** Round trips: [backward (forward x)] *)

Section RoundTrips.

(** *** AbsoluteValueTransform *)

Lemma AbsoluteValue_round_trip_abs (x : R) :
  -1 < x < 1 ->
  AbsoluteValueTransform.backward (AbsoluteValueTransform.forward x) = Rabs x.
Proof.
  intros [H0 H1]. unfold AbsoluteValueTransform.backward, tt.abs_.
  change (AbsoluteValueTransform.forward x) with (logit (0.5 * (x + 1))).
  rewrite sigmoid_logit by lra. f_equal. lra.
Qed.

Lemma AbsoluteValue_round_trip (x : R) :
  0 <= x < 1 ->
  AbsoluteValueTransform.backward (AbsoluteValueTransform.forward x) = x.
Proof.
  intros [H0 H1]. rewrite AbsoluteValue_round_trip_abs by lra.
  apply Rabs_pos_eq. exact H0.
Qed.

(** *** UnitVectorTransform *)

Lemma map_div_1 (l : list R) : map (fun v => v / 1) l = l.
Proof.
  induction l as [| v l IH]; cbn; [reflexivity |].
  rewrite IH. f_equal. lra.
Qed.

Lemma UnitVector_round_trip (x : list R) :
  tt.sum (map tt.square x) = 1 ->
  UnitVectorTransform.backward (UnitVectorTransform.forward x) = x.
Proof.
  intros Hx. unfold UnitVectorTransform.backward, UnitVectorTransform.forward.
  rewrite Hx, sqrt_1. apply map_div_1.
Qed.

(** *** UnitDiskTransform *)

Lemma UnitDisk_round_trip (x : R * R) :
  -1 < fst x < 1 ->
  UnitDiskTransform.backward (UnitDiskTransform.forward x) = x.
Proof.
  intros [H0 H1]. destruct x as [x0 x1]. cbn [fst snd] in *.
  unfold UnitDiskTransform.backward, UnitDiskTransform.forward.
  cbn [fst snd]. f_equal.
  assert (Hs : 0 < sqrt (1 - x0 ^ 2)) by (apply sqrt_lt_R0; nra).
  field. lra.
Qed.

(** *** QuadLimbDarkTransform *)

Lemma QuadLimbDark_round_trip (x : R * R) :
  0 < fst x -> fst x + snd x < 1 -> 0 < fst x + 2 * snd x ->
  QuadLimbDarkTransform.backward (QuadLimbDarkTransform.forward x) = x.
Proof.
  destruct x as [x0 x1]. cbn [fst snd]. intros H0 H1 H2.
  unfold QuadLimbDarkTransform.backward, QuadLimbDarkTransform.forward.
  cbn [fst snd].
  set (usum := x0 + x1).
  assert (Hu : 0 < usum < 1) by (unfold usum; lra).
  change (tt.log (usum ^ 2) - tt.log (1 - usum ^ 2)) with (logit (usum ^ 2)).
  change (tt.log (0.5 * x0 / usum) - tt.log (1 - 0.5 * x0 / usum))
    with (logit (0.5 * x0 / usum)).
  assert (Hq1 : 0 < 0.5 * x0 / usum < 1).
  { split.
    - apply Rdiv_lt_0_compat; lra.
    - apply Rmult_lt_reg_r with usum; [lra |].
      unfold Rdiv. rewrite Rmult_assoc, Rinv_l by lra. unfold usum. lra. }
  rewrite !sigmoid_logit by (try exact Hq1; nra).
  replace (usum ^ 2) with (usum * usum) by ring.
  rewrite sqrt_square by lra.
  replace 0.5 with (/ 2) by lra.
  f_equal; unfold usum in *; field; lra.
Qed.

(** *** ImpactParameterTransform *)

Lemma sigmoid_ln_odds (q : R) : 0 < q < 1 -> tt.sigmoid (ln (q / (1 - q))) = q.
Proof.
  intros [H0 H1]. unfold tt.sigmoid.
  assert (Ho : 0 < q / (1 - q)) by (apply Rdiv_lt_0_compat; lra).
  rewrite exp_Ropp, exp_ln by exact Ho. field. lra.
Qed.

Lemma ImpactParameter_round_trip (ror x : R) :
  -1 < ror -> 0 < x < 1 + ror ->
  ImpactParameterTransform.backward (ImpactParameterTransform.__init__ ror)
    (ImpactParameterTransform.forward (ImpactParameterTransform.__init__ ror) x)
  = x.
Proof.
  intros Hr [H0 H1].
  unfold ImpactParameterTransform.backward, ImpactParameterTransform.forward,
    LogOdds.forward, tt.log.
  cbn [ImpactParameterTransform.one_plus_ror ImpactParameterTransform.__init__].
  assert (Hq : 0 < x / (1 + ror) < 1).
  { split.
    - apply Rdiv_lt_0_compat; lra.
    - apply Rmult_lt_reg_r with (1 + ror); [lra |].
      unfold Rdiv. rewrite Rmult_assoc, Rinv_l by lra. lra. }
  rewrite LogOdds_backward_sigmoid, sigmoid_ln_odds by exact Hq.
  field. lra.
Qed.

End RoundTrips.

(** ** The angle of a point on the unit circle *)

(** Settle every comparison of the goal whose outcome [lra] knows. *)
Ltac settle_comparisons :=
  repeat match goal with
    | |- context [Rlt_dec ?a ?b] => destruct (Rlt_dec a b); try lra
    | |- context [Rle_dec ?a ?b] => destruct (Rle_dec a b); try lra
    end.

Section Arctan2.

Lemma tan_shift (x : R) : cos x <> 0 -> sin x / cos x = tan (x + PI).
Proof.
  intros Hc. unfold tan. rewrite neg_sin, neg_cos. field. exact Hc.
Qed.

Lemma arctan2_right (x : R) :
  - (PI / 2) < x < PI / 2 -> tt.arctan2 (sin x) (cos x) = x.
Proof.
  intros [H0 H1]. pose proof (cos_gt_0 x H0 H1) as Hc.
  unfold tt.arctan2. destruct (Rlt_dec 0 (cos x)) as [_ | Hn]; [| lra].
  change (sin x / cos x) with (tan x). apply atan_tan. lra.
Qed.

Lemma arctan2_top : tt.arctan2 (sin (PI / 2)) (cos (PI / 2)) = PI / 2.
Proof.
  unfold tt.arctan2. rewrite sin_PI2, cos_PI2.
  destruct (Rlt_dec 0 0) as [H | _]; [lra |].
  destruct (Rlt_dec 0 1) as [_ | H]; [reflexivity | lra].
Qed.

Lemma arctan2_bottom :
  tt.arctan2 (sin (- (PI / 2))) (cos (- (PI / 2))) = - (PI / 2).
Proof.
  unfold tt.arctan2. rewrite sin_neg, cos_neg, sin_PI2, cos_PI2.
  settle_comparisons.
Qed.

Lemma arctan2_upper_left (x : R) :
  PI / 2 < x <= PI -> tt.arctan2 (sin x) (cos x) = x.
Proof.
  intros [H0 H1]. pose proof PI_RGT_0 as Hpi.
  assert (Hc : cos x < 0) by (apply cos_lt_0; lra).
  assert (Hs : 0 <= sin x) by (apply sin_ge_0; lra).
  unfold tt.arctan2.
  destruct (Rlt_dec 0 (cos x)) as [H | _]; [lra |].
  destruct (Rlt_dec (cos x) 0) as [_ | H]; [| lra].
  destruct (Rle_dec 0 (sin x)) as [_ | H]; [| lra].
  assert (Ht : sin x / cos x = tan (x - PI)).
  { replace x with ((x - PI) + PI) at 1 2 by lra.
    rewrite neg_sin, neg_cos. unfold tan. field.
    intros Hz. replace x with ((x - PI) + PI) in Hc by lra.
    rewrite neg_cos in Hc. lra. }
  rewrite Ht, atan_tan by lra. lra.
Qed.

Lemma arctan2_lower_left (x : R) :
  - PI < x < - (PI / 2) -> tt.arctan2 (sin x) (cos x) = x.
Proof.
  intros [H0 H1]. pose proof PI_RGT_0 as Hpi.
  assert (Hc : cos x < 0).
  { rewrite <- cos_neg. apply cos_lt_0; lra. }
  assert (Hs : sin x < 0) by (apply sin_lt_0_var; lra).
  unfold tt.arctan2.
  destruct (Rlt_dec 0 (cos x)) as [H | _]; [lra |].
  destruct (Rlt_dec (cos x) 0) as [_ | H]; [| lra].
  destruct (Rle_dec 0 (sin x)) as [H | _]; [lra |].
  rewrite tan_shift, atan_tan by lra. lra.
Qed.

Lemma arctan2_sin_cos (x : R) :
  - PI < x <= PI -> tt.arctan2 (sin x) (cos x) = x.
Proof.
  intros [H0 H1].
  destruct (Rtotal_order x (- (PI / 2))) as [Hl | [-> | Hl]].
  - apply arctan2_lower_left. lra.
  - apply arctan2_bottom.
  - destruct (Rtotal_order x (PI / 2)) as [Hr | [-> | Hr]].
    + apply arctan2_right. lra.
    + apply arctan2_top.
    + apply arctan2_upper_left. lra.
Qed.

End Arctan2.

Section AngleRoundTrips.

Lemma Angle_round_trip (x : R) :
  - PI < x <= PI ->
  AngleTransform.backward (AngleTransform.forward x) = x.
Proof.
  intros Hx. unfold AngleTransform.backward, AngleTransform.forward.
  cbn [fst snd]. apply arctan2_sin_cos. exact Hx.
Qed.

Lemma Periodic_round_trip (lower upper x : R) (regularized : option (option R)) :
  lower < upper -> lower < x <= upper ->
  let self := PeriodicTransform.__init__ lower upper regularized in
  PeriodicTransform.backward self (PeriodicTransform.forward self x) = x.
Proof.
  intros Hlu [H0 H1] self. pose proof PI_RGT_0 as Hpi.
  unfold PeriodicTransform.backward, PeriodicTransform.forward.
  cbn [fst snd PeriodicTransform.mid PeriodicTransform.delta self
       PeriodicTransform.__init__].
  replace 0.5 with (/ 2) by lra.
  set (a := (x - / 2 * (lower + upper)) / (/ 2 * (upper - lower) / PI)).
  assert (Ha : a * (upper - lower) = (2 * x - (lower + upper)) * PI).
  { unfold a. field. lra. }
  assert (Hr : - PI < a <= PI) by (split; nra).
  rewrite arctan2_sin_cos by exact Hr.
  unfold a. field. lra.
Qed.

End AngleRoundTrips.

(** ** RadiusImpactTransform: round trip *)

Section RadiusImpactRoundTrip.

Import RadiusImpactTransform.

Variables (pl pu : R) (self : t).
Hypothesis radii : 0 <= pl < pu.
Hypothesis constructed : __init__ pl pu = Ok self.

(** Below the seam [b = 1 + pl], through branch A both ways. *)
Lemma round_trip_A (p b : R) :
  pl < p < pu -> 0 < b -> b <= 1 -> b < 1 + pl ->
  backward self (forward self (p, b)) = (p, b).
Proof using radii constructed.
  intros [Hp0 Hp1] Hb0 Hb1 Hb2.
  pose proof (Ar_range pl pu self radii constructed) as [HA0 HA1].
  rewrite RadiusImpact_forward_logit2. cbn [fst snd].
  unfold tt.switch, tt.le. destruct (Rle_dec b 1) as [_ | Hn]; [| lra].
  pose proof (forward_A_snd_range pl pu self radii constructed p b
                (conj Hp0 Hp1)) as Hr2.
  assert (Hr1 : Ar self < fst (forward_A self p b) < 1).
  { unfold forward_A. cbn [fst].
    rewrite (init_min_radius pl pu) by assumption.
    set (k := b / (1 + pl)).
    assert (Hk : 0 < k < 1).
    { unfold k. split.
      - apply Rdiv_lt_0_compat; lra.
      - apply Rmult_lt_reg_r with (1 + pl); [lra |].
        unfold Rdiv. rewrite Rmult_assoc, Rinv_l by lra. lra. }
    split; nra. }
  unfold backward, logit2. cbn [fst snd].
  rewrite !sigmoid_logit by lra.
  unfold tt.switch, tt.gt.
  destruct (Rlt_dec (Ar self) (fst (forward_A self p b))) as [_ | Hn];
    [| lra].
  unfold backward_A, forward_A. cbn [fst snd].
  rewrite (init_min_radius pl pu), (init_dr pl pu) by assumption.
  f_equal; field; lra.
Qed.

(** Above the seam, through branch B both ways. *)
Lemma round_trip_B (p b : R) :
  pl < p < pu -> 1 + pl < b < 1 + p ->
  backward self (forward self (p, b)) = (p, b).
Proof using radii constructed.
  intros [Hp0 Hp1] [Hb0 Hb1].
  pose proof (Ar_range pl pu self radii constructed) as [HA0 HA1].
  rewrite RadiusImpact_forward_logit2. cbn [fst snd].
  unfold tt.switch, tt.le. destruct (Rle_dec b 1) as [Hle | _]; [lra |].
  set (s := (b - p + (pu - pl) - 1) / (pu - pl)).
  assert (Hs : 0 < s < 1).
  { unfold s. split.
    - apply Rdiv_lt_0_compat; lra.
    - apply Rmult_lt_reg_r with (pu - pl); [lra |].
      unfold Rdiv. rewrite Rmult_assoc, Rinv_l by lra. lra. }
  assert (E1 : fst (forward_B self p b) = s * s * Ar self).
  { unfold forward_B, s. cbn [fst].
    rewrite (init_dr pl pu) by assumption. field. lra. }
  assert (E2 : snd (forward_B self p b) * (s * (pu - pl)) = b - 1 - pl).
  { unfold forward_B, s. cbn [snd].
    rewrite (init_min_radius pl pu), (init_dr pl pu) by assumption.
    field. lra. }
  assert (Hr2 : 0 < snd (forward_B self p b) < 1).
  { assert (Hd : 0 < s * (pu - pl)) by nra.
    assert (Hsd : s * (pu - pl) = b - p + (pu - pl) - 1).
    { unfold s. field. lra. }
    split.
    - apply Rmult_lt_reg_r with (s * (pu - pl)); [exact Hd |]. lra.
    - apply Rmult_lt_reg_r with (s * (pu - pl)); [exact Hd |]. lra. }
  assert (Hr1 : 0 < fst (forward_B self p b) < Ar self).
  { rewrite E1. assert (Hss : 0 < s * s < 1) by nra.
    pose proof (Rmult_lt_0_compat _ _ (proj1 Hss) HA0).
    assert (0 < (1 - s * s) * Ar self) by (apply Rmult_lt_0_compat; lra).
    lra. }
  unfold backward, logit2. cbn [fst snd].
  rewrite !sigmoid_logit by lra.
  unfold tt.switch, tt.gt.
  destruct (Rlt_dec (Ar self) (fst (forward_B self p b))) as [Hgt | _];
    [lra |].
  unfold backward_B.
  rewrite (init_min_radius pl pu), (init_max_radius pl pu), (init_dr pl pu)
    by assumption.
  rewrite E1.
  replace (s * s * Ar self / Ar self) with (s * s) by (field; lra).
  rewrite sqrt_square by lra.
  assert (Hsd : s * (pu - pl) = b - p + (pu - pl) - 1).
  { unfold s. field. lra. }
  set (r22 := snd (forward_B self p b)) in *.
  f_equal.
  - replace ((pu - pl) * s * (1 - r22))
      with (s * (pu - pl) - r22 * (s * (pu - pl))) by ring.
    rewrite E2, Hsd. lra.
  - replace (s * r22 * (pu - pl)) with (r22 * (s * (pu - pl))) by ring.
    rewrite E2. lra.
Qed.

Lemma round_trip (p b : R) :
  pl < p < pu -> 0 < b < 1 + p ->
  (b <= 1 /\ b < 1 + pl) \/ 1 + pl < b ->
  backward self (forward self (p, b)) = (p, b).
Proof using radii constructed.
  intros Hp [Hb0 Hb1] [[Hle Hlt] | Hgt].
  - apply round_trip_A; assumption.
  - apply round_trip_B; [exact Hp | lra].
Qed.

End RadiusImpactRoundTrip.

(** Between [b = 1] and the seam [b = 1 + pl], where [forward] takes
    branch B, the second entry of that branch is not in (0, 1). *)
Remark RadiusImpact_forward_between_seams
    (pl pu : R) (self : RadiusImpactTransform.t) (p b : R) :
  0 <= pl < pu -> RadiusImpactTransform.__init__ pl pu = Ok self ->
  pl < p < pu -> 1 < b < 1 + pl ->
  ~ 0 < snd (RadiusImpactTransform.forward_B self p b) < 1.
Proof.
  intros Hr Hc [Hp0 Hp1] [Hb0 Hb1] [H0 H1].
  unfold RadiusImpactTransform.forward_B in H0, H1. cbn [snd] in H0, H1.
  rewrite (init_min_radius pl pu), (init_dr pl pu) in H0, H1 by assumption.
  set (arg := p - b - (pu - pl) + 1) in *.
  destruct (Rtotal_order arg 0) as [Ha | [Ha | Ha]].
  - assert (Hi : / arg < 0) by (apply Rinv_lt_0_compat; exact Ha).
    unfold Rdiv in H0. nra.
  - rewrite Ha in H0. unfold Rdiv in H0. rewrite Rinv_0 in H0. lra.
  - apply (Rmult_lt_compat_r arg) in H1; [| exact Ha].
    unfold Rdiv in H1. rewrite Rmult_assoc, Rinv_l in H1 by lra.
    unfold arg in H1. lra.
Qed.

(** C2, as stated, fails for [AbsoluteValueTransform] at [x = -1/2], a
    point of its declared domain (-1, 1): the round trip returns [1/2]. *)
Lemma AbsoluteValue_round_trip_fails_at_negative :
  -1 < -1 / 2 < 1 /\
  AbsoluteValueTransform.backward (AbsoluteValueTransform.forward (-1 / 2))
  <> -1 / 2.
Proof.
  split; [lra |].
  rewrite AbsoluteValue_round_trip_abs by lra.
  replace (-1 / 2) with (- (1 / 2)) by lra.
  rewrite Rabs_Ropp, Rabs_pos_eq by lra. lra.
Qed.

(** C2, amended: [backward (forward x) = x] holds
    - for [AbsoluteValueTransform] on [[0, 1)], while on all of (-1, 1)
      the round trip returns [|x|];
    - for [UnitVectorTransform] on unit vectors;
    - for [UnitDiskTransform] when [-1 < x[0] < 1];
    - for [AngleTransform] on (-pi, pi] and for [PeriodicTransform] on
      (lower, upper];
    - for [QuadLimbDarkTransform] on the triangle [0 < x[0]],
      [x[0] + x[1] < 1], [0 < x[0] + 2 * x[1]];
    - for [RadiusImpactTransform] with [0 <= min_radius < max_radius] on
      the pairs with [min_radius < p < max_radius], [0 < b < 1 + p] and
      either [b <= 1] and [b < 1 + min_radius], or [1 + min_radius < b];
    - for [ImpactParameterTransform] with [ror > -1] on (0, 1 + ror). *)
Theorem transforms_round_trip :
  (forall x : R, 0 <= x < 1 ->
     AbsoluteValueTransform.backward (AbsoluteValueTransform.forward x) = x) /\
  (forall x : R, -1 < x < 1 ->
     AbsoluteValueTransform.backward (AbsoluteValueTransform.forward x)
     = Rabs x) /\
  (forall x : list R, tt.sum (map tt.square x) = 1 ->
     UnitVectorTransform.backward (UnitVectorTransform.forward x) = x) /\
  (forall x : R * R, -1 < fst x < 1 ->
     UnitDiskTransform.backward (UnitDiskTransform.forward x) = x) /\
  (forall x : R, - PI < x <= PI ->
     AngleTransform.backward (AngleTransform.forward x) = x) /\
  (forall (lower upper : R) (regularized : option (option R)) (x : R),
     lower < upper -> lower < x <= upper ->
     let self := PeriodicTransform.__init__ lower upper regularized in
     PeriodicTransform.backward self (PeriodicTransform.forward self x) = x) /\
  (forall x : R * R,
     0 < fst x -> fst x + snd x < 1 -> 0 < fst x + 2 * snd x ->
     QuadLimbDarkTransform.backward (QuadLimbDarkTransform.forward x) = x) /\
  (forall (pl pu : R) (self : RadiusImpactTransform.t) (p b : R),
     0 <= pl < pu -> RadiusImpactTransform.__init__ pl pu = Ok self ->
     pl < p < pu -> 0 < b < 1 + p ->
     (b <= 1 /\ b < 1 + pl) \/ 1 + pl < b ->
     RadiusImpactTransform.backward self
       (RadiusImpactTransform.forward self (p, b)) = (p, b)) /\
  (forall ror x : R, -1 < ror -> 0 < x < 1 + ror ->
     let self := ImpactParameterTransform.__init__ ror in
     ImpactParameterTransform.backward self
       (ImpactParameterTransform.forward self x) = x).
Proof.
  repeat split.
  - apply AbsoluteValue_round_trip.
  - apply AbsoluteValue_round_trip_abs.
  - apply UnitVector_round_trip.
  - apply UnitDisk_round_trip.
  - apply Angle_round_trip.
  - intros lower upper regularized x. apply Periodic_round_trip.
  - apply QuadLimbDark_round_trip.
  - intros pl pu self p b Hr Hc. apply (round_trip pl pu self Hr Hc).
  - intros ror x. apply ImpactParameter_round_trip.
Qed.

Lemma transforms_round_trip_witness :
  AbsoluteValueTransform.backward (AbsoluteValueTransform.forward (1 / 2))
  = 1 / 2 /\
  exists self : RadiusImpactTransform.t,
    RadiusImpactTransform.__init__ 0 (1 / 5) = Ok self /\
    RadiusImpactTransform.backward self
      (RadiusImpactTransform.forward self (1 / 10, 3 / 10))
    = (1 / 10, 3 / 10).
Proof.
  destruct transforms_round_trip as (Habs & _ & _ & _ & _ & _ & _ & Hri & _).
  split.
  - apply Habs. lra.
  - eexists. split; [reflexivity |].
    apply (Hri 0 (1 / 5)); [lra | reflexivity | lra | lra | left; lra].
Defined.

(** * Further properties of the transforms *)

(** ** More on the logistic map *)

Lemma logit_sigmoid (y : R) : logit (tt.sigmoid y) = y.
Proof.
  pose proof (sigmoid_denominator_pos y) as Hd.
  pose proof (exp_pos (- y)) as He.
  unfold logit, tt.log, tt.sigmoid.
  replace (1 - 1 / (1 + exp (- y))) with (exp (- y) * / (1 + exp (- y)))
    by (field; lra).
  replace (1 / (1 + exp (- y))) with (/ (1 + exp (- y))) by (field; lra).
  assert (Hi : 0 < / (1 + exp (- y))) by (apply Rinv_0_lt_compat; lra).
  rewrite ln_mult, ln_exp by lra. lra.
Qed.

Lemma sigmoid_inj (y y' : R) : tt.sigmoid y = tt.sigmoid y' -> y = y'.
Proof.
  intros H. rewrite <- (logit_sigmoid y), <- (logit_sigmoid y'), H.
  reflexivity.
Qed.

Lemma sigmoid_increasing (y y' : R) : y < y' -> tt.sigmoid y < tt.sigmoid y'.
Proof.
  intros H. unfold tt.sigmoid.
  pose proof (exp_pos (- y)) as He. pose proof (exp_pos (- y')) as He'.
  assert (Hlt : exp (- y') < exp (- y)) by (apply exp_increasing; lra).
  unfold Rdiv. rewrite !Rmult_1_l.
  apply Rinv_0_lt_contravar; lra.
Qed.

Lemma sigmoid_opp (y : R) : tt.sigmoid (- y) = 1 - tt.sigmoid y.
Proof.
  pose proof (exp_pos y) as He. pose proof (exp_pos (- y)) as He'.
  unfold tt.sigmoid. rewrite Ropp_involutive.
  assert (Hm : exp y * exp (- y) = 1).
  { rewrite <- exp_plus. replace (y + - y) with 0 by lra. apply exp_0. }
  apply Rmult_eq_reg_r with ((1 + exp y) * (1 + exp (- y))); [| nra].
  field_simplify; [| lra | lra]. nra.
Qed.

(** ** AbsoluteValueTransform: the two preimages *)

Lemma backward_opp (y : R) :
  AbsoluteValueTransform.backward (- y) = AbsoluteValueTransform.backward y.
Proof.
  unfold AbsoluteValueTransform.backward, tt.abs_.
  rewrite sigmoid_opp.
  replace (2 * (1 - tt.sigmoid y) - 1) with (- (2 * tt.sigmoid y - 1)) by lra.
  apply Rabs_Ropp.
Qed.

(** [backward] does not tell [y] from [-y]: the two unconstrained points
    have the same image. *)
Theorem AbsoluteValue_backward_even (y : R) :
  AbsoluteValueTransform.backward (- y) = AbsoluteValueTransform.backward y.
Proof. apply backward_opp. Qed.


Lemma AbsoluteValue_forward_backward_nonneg (y : R) :
  0 <= y ->
  AbsoluteValueTransform.forward (AbsoluteValueTransform.backward y) = y.
Proof.
  intros Hy. unfold AbsoluteValueTransform.backward, tt.abs_.
  assert (Hs : 1 / 2 <= tt.sigmoid y).
  { destruct Hy as [Hy | <-]; [apply Rlt_le, sigmoid_gt_half; exact Hy |].
    rewrite sigmoid_0. lra. }
  rewrite Rabs_pos_eq by lra.
  unfold AbsoluteValueTransform.forward.
  replace (0.5 * (2 * tt.sigmoid y - 1 + 1)) with (tt.sigmoid y) by lra.
  apply logit_sigmoid.
Qed.

(** Going back and forth from the unconstrained side returns [|y|]. *)
Theorem AbsoluteValue_forward_backward (y : R) :
  AbsoluteValueTransform.forward (AbsoluteValueTransform.backward y) = Rabs y.
Proof.
  destruct (Rle_or_lt 0 y) as [Hy | Hy].
  - rewrite Rabs_pos_eq by exact Hy.
    apply AbsoluteValue_forward_backward_nonneg. exact Hy.
  - rewrite Rabs_left by exact Hy.
    rewrite <- backward_opp.
    apply AbsoluteValue_forward_backward_nonneg. lra.
Qed.

(** ** UnitVectorTransform: normalisation *)

Section UnitVector.

Import UnitVectorTransform.

Lemma sum_squares_nonneg (y : list R) : 0 <= tt.sum (map tt.square y).
Proof.
  induction y as [| v y IH]; cbn; [lra |].
  unfold tt.square at 1. fold (tt.sum (map tt.square y)). nra.
Qed.

Lemma sum_squares_div (y : list R) (n : R) :
  tt.sum (map tt.square (map (fun v => v / n) y))
  = tt.sum (map tt.square y) * (/ n * / n).
Proof.
  induction y as [| v y IH]; cbn; [lra |].
  fold (tt.sum (map tt.square (map (fun v => v / n) y))).
  fold (tt.sum (map tt.square y)).
  rewrite IH. unfold tt.square, Rdiv. ring.
Qed.

Lemma sum_squares_scale (c : R) (y : list R) :
  tt.sum (map tt.square (map (Rmult c) y))
  = (c * c) * tt.sum (map tt.square y).
Proof.
  induction y as [| v y IH]; cbn; [lra |].
  fold (tt.sum (map tt.square (map (Rmult c) y))).
  fold (tt.sum (map tt.square y)).
  rewrite IH. unfold tt.square. ring.
Qed.

Lemma backward_sum_squares (y : list R) :
  0 < tt.sum (map tt.square y) ->
  tt.sum (map tt.square (backward y)) = 1.
Proof.
  intros Hy. unfold backward. rewrite sum_squares_div.
  set (s := tt.sum (map tt.square y)) in *.
  assert (Hn : 0 < sqrt s) by (apply sqrt_lt_R0; exact Hy).
  rewrite <- Rinv_mult, sqrt_def by lra.
  apply Rinv_r. lra.
Qed.

End UnitVector.

(** For every vector that is not zero, [backward] returns a unit vector:
    the squares of its entries sum to 1. *)
Theorem UnitVector_backward_unit_norm (y : list R)
    (Hy : 0 < tt.sum (map tt.square y)) :
  tt.sum (map tt.square (UnitVectorTransform.backward y)) = 1.
Proof. apply backward_sum_squares. exact Hy. Qed.

Lemma UnitVector_backward_unit_norm_witness :
  tt.sum (map tt.square (UnitVectorTransform.backward [3; 4])) = 1.
Proof.
  apply UnitVector_backward_unit_norm. cbn. unfold tt.square. lra.
Defined.

(** [backward] sees only the direction: scaling a non-zero vector by a
    positive factor does not change the result. *)
Theorem UnitVector_backward_scale_invariant (c : R) (y : list R)
    (Hc : 0 < c) (Hy : 0 < tt.sum (map tt.square y)) :
  UnitVectorTransform.backward (map (Rmult c) y)
  = UnitVectorTransform.backward y.
Proof.
  unfold UnitVectorTransform.backward.
  rewrite sum_squares_scale, sqrt_mult_alt, sqrt_square by nra.
  set (n := sqrt (tt.sum (map tt.square y))).
  assert (Hn : 0 < n) by (apply sqrt_lt_R0; exact Hy).
  rewrite map_map. apply map_ext. intros v. field. lra.
Qed.

Lemma UnitVector_backward_scale_invariant_witness :
  UnitVectorTransform.backward (map (Rmult 2) [3; 4])
  = UnitVectorTransform.backward [3; 4].
Proof.
  apply UnitVector_backward_scale_invariant; [lra |].
  cbn. unfold tt.square. lra.
Defined.

(** Normalising twice is normalising once. *)
Theorem UnitVector_backward_idempotent (y : list R)
    (Hy : 0 < tt.sum (map tt.square y)) :
  UnitVectorTransform.backward (UnitVectorTransform.backward y)
  = UnitVectorTransform.backward y.
Proof.
  apply (UnitVector_round_trip (UnitVectorTransform.backward y)).
  apply backward_sum_squares. exact Hy.
Qed.

Lemma UnitVector_backward_idempotent_witness :
  UnitVectorTransform.backward (UnitVectorTransform.backward [3; 4])
  = UnitVectorTransform.backward [3; 4].
Proof.
  apply UnitVector_backward_idempotent. cbn. unfold tt.square. lra.
Defined.

(** ** UnitDiskTransform: the disk *)

Section UnitDisk.

Import UnitDiskTransform.

Lemma disk_scale_pos (y0 : R) : -1 < y0 < 1 -> 0 < sqrt (1 - y0 ^ 2).
Proof. intros H. apply sqrt_lt_R0. nra. Qed.

Lemma disk_scale_sqr (y0 : R) :
  -1 < y0 < 1 -> sqrt (1 - y0 ^ 2) * sqrt (1 - y0 ^ 2) = 1 - y0 ^ 2.
Proof. intros H. apply sqrt_def. nra. Qed.

End UnitDisk.

(** A point of the open square (-1, 1) x (-1, 1), which is what the
    interval stage of [unit_disk] hands over, is sent by [backward] into
    the open unit disk. *)
Theorem UnitDisk_backward_in_disk (y : R * R)
    (H0 : -1 < fst y < 1) (H1 : -1 < snd y < 1) :
  fst (UnitDiskTransform.backward y) ^ 2
  + snd (UnitDiskTransform.backward y) ^ 2 < 1.
Proof.
  destruct y as [y0 y1]. cbn [fst snd] in *.
  unfold UnitDiskTransform.backward. cbn [fst snd].
  pose proof (disk_scale_sqr y0 H0) as Hs.
  set (s := sqrt (1 - y0 ^ 2)) in *.
  replace ((y1 * s) ^ 2) with (y1 ^ 2 * (s * s)) by ring.
  rewrite Hs.
  assert (Ha : 0 < 1 - y0 ^ 2) by nra.
  assert (Hb : 0 < 1 - y1 ^ 2) by nra.
  pose proof (Rmult_lt_0_compat _ _ Ha Hb). nra.
Qed.

Lemma UnitDisk_backward_in_disk_witness :
  fst (UnitDiskTransform.backward (1 / 2, 1 / 2)) ^ 2
  + snd (UnitDiskTransform.backward (1 / 2, 1 / 2)) ^ 2 < 1.
Proof.
  apply UnitDisk_backward_in_disk; cbn [fst snd]; lra.
Defined.

(** [forward] undoes [backward] whenever [-1 < y[0] < 1]. *)
Theorem UnitDisk_forward_backward (y : R * R) (H0 : -1 < fst y < 1) :
  UnitDiskTransform.forward (UnitDiskTransform.backward y) = y.
Proof.
  destruct y as [y0 y1]. cbn [fst snd] in *.
  unfold UnitDiskTransform.backward, UnitDiskTransform.forward.
  cbn [fst snd]. pose proof (disk_scale_pos y0 H0) as Hs.
  f_equal. field. lra.
Qed.

Lemma UnitDisk_forward_backward_witness :
  UnitDiskTransform.forward (UnitDiskTransform.backward (1 / 2, 3))
  = (1 / 2, 3).
Proof.
  apply UnitDisk_forward_backward. cbn [fst]. lra.
Defined.

(** The Jacobian of [backward] is triangular, with diagonal entries [1]
    and [sqrt (1 - y[0]^2)]; the two entries of [jacobian_det] are the
    logarithms of these, so their sum is the log-determinant. *)
Theorem UnitDisk_jacobian_det_log_diagonal (y0 y1 : R) (H0 : -1 < y0 < 1) :
  derivable_pt_lim (fun t => fst (UnitDiskTransform.backward (t, y1))) y0 1 /\
  derivable_pt_lim (fun t => fst (UnitDiskTransform.backward (y0, t))) y1 0 /\
  derivable_pt_lim (fun t => snd (UnitDiskTransform.backward (y0, t))) y1
    (sqrt (1 - y0 ^ 2)) /\
  fst (UnitDiskTransform.jacobian_det (y0, y1)) = ln 1 /\
  snd (UnitDiskTransform.jacobian_det (y0, y1)) = ln (sqrt (1 - y0 ^ 2)).
Proof.
  pose proof (disk_scale_pos y0 H0) as Hs.
  pose proof (disk_scale_sqr y0 H0) as Hq.
  unfold UnitDiskTransform.backward, UnitDiskTransform.jacobian_det.
  cbn [fst snd]. repeat split.
  - apply derivable_pt_lim_id.
  - apply (derivable_pt_lim_const y0 y1).
  - pose proof (derivable_pt_lim_scal_right id y1 1 (sqrt (1 - y0 ^ 2))
                  (derivable_pt_lim_id y1)) as H.
    rewrite Rmult_1_l in H. exact H.
  - rewrite ln_1. reflexivity.
  - unfold tt.log. set (s := sqrt (1 - y0 ^ 2)) in *.
    rewrite <- Hq, ln_mult by lra. lra.
Qed.

Lemma UnitDisk_jacobian_det_log_diagonal_witness :
  snd (UnitDiskTransform.jacobian_det (1 / 2, 3))
  = ln (sqrt (1 - (1 / 2) ^ 2)).
Proof.
  assert (H0 : -1 < 1 / 2 < 1) by lra.
  exact (proj2 (proj2 (proj2 (proj2
           (UnitDisk_jacobian_det_log_diagonal (1 / 2) 3 H0))))).
Defined.

(** ** AngleTransform and PeriodicTransform: the angle *)

Section Angles.

Lemma atan_nonpos (t : R) : t <= 0 -> atan t <= 0.
Proof.
  intros [Ht | ->]; [| rewrite atan_0; lra].
  rewrite <- atan_0. apply Rlt_le, atan_increasing. exact Ht.
Qed.

Lemma atan_pos (t : R) : 0 < t -> 0 < atan t.
Proof. intros Ht. rewrite <- atan_0. apply atan_increasing. exact Ht. Qed.

Lemma ratio_nonpos (y x : R) : x < 0 -> 0 <= y -> y / x <= 0.
Proof.
  intros Hx Hy. assert (Hi : / x < 0) by (apply Rinv_lt_0_compat; exact Hx).
  unfold Rdiv. nra.
Qed.

Lemma ratio_pos (y x : R) : x < 0 -> y < 0 -> 0 < y / x.
Proof.
  intros Hx Hy. assert (Hi : / x < 0) by (apply Rinv_lt_0_compat; exact Hx).
  unfold Rdiv. nra.
Qed.

Lemma arctan2_range (y x : R) : - PI < tt.arctan2 y x <= PI.
Proof.
  pose proof PI_RGT_0 as Hpi. pose proof (atan_bound (y / x)) as [Hl Hu].
  unfold tt.arctan2.
  destruct (Rlt_dec 0 x) as [Hx | Hx]; [lra |].
  destruct (Rlt_dec x 0) as [Hx' | Hx'].
  - destruct (Rle_dec 0 y) as [Hy | Hy].
    + pose proof (atan_nonpos _ (ratio_nonpos y x Hx' Hy)). lra.
    + pose proof (atan_pos _ (ratio_pos y x Hx' ltac:(lra))). lra.
  - destruct (Rlt_dec 0 y); [lra |]. destruct (Rlt_dec y 0); lra.
Qed.

Lemma arctan2_scale (c y x : R) :
  0 < c -> tt.arctan2 (c * y) (c * x) = tt.arctan2 y x.
Proof.
  intros Hc. unfold tt.arctan2.
  assert (Hq : x <> 0 -> c * y / (c * x) = y / x) by (intros; field; lra).
  destruct (Rlt_dec 0 x) as [Hx | Hx].
  - destruct (Rlt_dec 0 (c * x)) as [_ | Hn]; [| nra].
    rewrite Hq by lra. reflexivity.
  - destruct (Rlt_dec 0 (c * x)) as [Hp | _]; [nra |].
    destruct (Rlt_dec x 0) as [Hx' | Hx'].
    + destruct (Rlt_dec (c * x) 0) as [_ | Hn]; [| nra].
      rewrite Hq by lra.
      destruct (Rle_dec 0 y), (Rle_dec 0 (c * y)); try reflexivity; nra.
    + destruct (Rlt_dec (c * x) 0) as [Hn | _]; [nra |].
      destruct (Rlt_dec 0 y), (Rlt_dec 0 (c * y)); try nra; try reflexivity.
      destruct (Rlt_dec y 0), (Rlt_dec (c * y) 0); try nra; reflexivity.
Qed.


Lemma periodic_delta_pos (lower upper : R) (reg : option (option R)) :
  lower < upper ->
  0 < PeriodicTransform.delta (PeriodicTransform.__init__ lower upper reg).
Proof.
  intros H. pose proof PI_RGT_0 as Hpi.
  cbn [PeriodicTransform.delta PeriodicTransform.__init__].
  apply Rdiv_lt_0_compat; lra.
Qed.

Lemma periodic_ends (lower upper : R) (reg : option (option R)) :
  let self := PeriodicTransform.__init__ lower upper reg in
  PeriodicTransform.mid self + PeriodicTransform.delta self * PI = upper /\
  PeriodicTransform.mid self - PeriodicTransform.delta self * PI = lower.
Proof.
  pose proof PI_RGT_0 as Hpi.
  cbn [PeriodicTransform.mid PeriodicTransform.delta
       PeriodicTransform.__init__].
  replace 0.5 with (/ 2) by lra. split; field; lra.
Qed.

End Angles.

(** For every pair [y], [backward] returns an angle in (-pi, pi]. *)
Theorem Angle_backward_range (y : R * R) :
  - PI < AngleTransform.backward y <= PI.
Proof. apply arctan2_range. Qed.

(** The angle does not depend on the length of [y]: scaling the pair by a
    positive factor leaves [backward] unchanged. *)
Theorem Angle_backward_scale_invariant (c : R) (y : R * R) (Hc : 0 < c) :
  AngleTransform.backward (c * fst y, c * snd y) = AngleTransform.backward y.
Proof.
  unfold AngleTransform.backward. cbn [fst snd].
  apply arctan2_scale. exact Hc.
Qed.

Lemma Angle_backward_scale_invariant_witness :
  AngleTransform.backward (2 * fst (1, 1), 2 * snd (1, 1))
  = AngleTransform.backward (1, 1).
Proof. apply Angle_backward_scale_invariant. lra. Defined.


(** For [lower < upper], [backward] returns a value in (lower, upper]
    for every pair [y]. *)
Theorem Periodic_backward_range
    (lower upper : R) (regularized : option (option R)) (y : R * R)
    (Hlu : lower < upper) :
  let self := PeriodicTransform.__init__ lower upper regularized in
  lower < PeriodicTransform.backward self y <= upper.
Proof.
  intros self.
  pose proof (periodic_delta_pos lower upper regularized Hlu) as Hd.
  pose proof (periodic_ends lower upper regularized) as [Hu Hl].
  pose proof (arctan2_range (fst y) (snd y)) as [Ha Hb].
  unfold PeriodicTransform.backward. fold self in Hd, Hu, Hl.
  set (d := PeriodicTransform.delta self) in *.
  set (m := PeriodicTransform.mid self) in *.
  split; nra.
Qed.

Lemma Periodic_backward_range_witness :
  0 < PeriodicTransform.backward (PeriodicTransform.__init__ 0 1 None) (1, 1)
  <= 1.
Proof.
  assert (H : 0 < 1) by lra.
  exact (Periodic_backward_range 0 1 None (1, 1) H).
Defined.

(** [forward] has period [upper - lower]. *)
Theorem Periodic_forward_period
    (lower upper : R) (regularized : option (option R)) (x : R)
    (Hlu : lower <> upper) :
  let self := PeriodicTransform.__init__ lower upper regularized in
  PeriodicTransform.forward self (x + (upper - lower))
  = PeriodicTransform.forward self x.
Proof.
  intros self. pose proof PI_RGT_0 as Hpi.
  unfold PeriodicTransform.forward.
  cbn [PeriodicTransform.mid PeriodicTransform.delta self
       PeriodicTransform.__init__].
  replace 0.5 with (/ 2) by lra.
  set (a := (x - / 2 * (lower + upper)) / (/ 2 * (upper - lower) / PI)).
  replace ((x + (upper - lower) - / 2 * (lower + upper))
           / (/ 2 * (upper - lower) / PI))
    with (a + 2 * INR 1 * PI) by (unfold a; cbn [INR]; field; lra).
  rewrite sin_period, cos_period. reflexivity.
Qed.

Lemma Periodic_forward_period_witness :
  PeriodicTransform.forward (PeriodicTransform.__init__ 0 1 None)
    (1 / 4 + (1 - 0))
  = PeriodicTransform.forward (PeriodicTransform.__init__ 0 1 None) (1 / 4).
Proof.
  assert (H : 0 <> 1) by lra.
  exact (Periodic_forward_period 0 1 None (1 / 4) H).
Defined.

Section AngleNormalises.

Lemma sin_cos_shift_down (a : R) :
  sin (a - PI) = - sin a /\ cos (a - PI) = - cos a.
Proof.
  pose proof (neg_sin (a - PI)) as Hs. pose proof (neg_cos (a - PI)) as Hc.
  replace (a - PI + PI) with a in Hs, Hc by lra. split; lra.
Qed.

(** [sqrt (1 + (y/x)^2) * |x|] is the length of [(x, y)]. *)
Lemma slope_length (y x : R) :
  x <> 0 ->
  sqrt (1 + (y / x)²) * Rabs x = sqrt (tt.square y + tt.square x).
Proof.
  intros Hx. rewrite <- sqrt_Rsqr_abs, <- sqrt_mult_alt.
  - f_equal. unfold Rsqr, tt.square. field. exact Hx.
  - pose proof (Rle_0_sqr (y / x)). lra.
Qed.

Lemma length_pos (y x : R) :
  0 < tt.square y + tt.square x -> 0 < sqrt (tt.square y + tt.square x).
Proof. intros H. apply sqrt_lt_R0. exact H. Qed.

Lemma sin_cos_atan_ratio (y x : R) :
  x <> 0 ->
  let r := sqrt (tt.square y + tt.square x) in
  sin (atan (y / x)) = y / x * Rabs x / r /\
  cos (atan (y / x)) = Rabs x / r.
Proof.
  intros Hx r.
  assert (Hr : 0 < r).
  { apply length_pos. unfold tt.square. nra. }
  pose proof (slope_length y x Hx) as Hl. fold r in Hl.
  assert (Ha : 0 < Rabs x) by (apply Rabs_pos_lt; exact Hx).
  assert (Hs : 0 < sqrt (1 + (y / x)²)).
  { apply sqrt_lt_R0. pose proof (Rle_0_sqr (y / x)). lra. }
  rewrite sin_atan, cos_atan, <- Hl. split; field; lra.
Qed.

Lemma forward_backward_unit (y0 y1 : R) :
  0 < tt.square y0 + tt.square y1 ->
  let r := sqrt (tt.square y0 + tt.square y1) in
  AngleTransform.forward (AngleTransform.backward (y0, y1))
  = (y0 / r, y1 / r).
Proof.
  intros Hy r. pose proof (length_pos y0 y1 Hy) as Hr. fold r in Hr.
  unfold AngleTransform.forward, AngleTransform.backward, tt.arctan2.
  cbn [fst snd].
  destruct (Rlt_dec 0 y1) as [Hx | Hx].
  - destruct (sin_cos_atan_ratio y0 y1 ltac:(lra)) as [Hs Hc].
    fold r in Hs, Hc. rewrite Hs, Hc, Rabs_pos_eq by lra.
    f_equal; field; lra.
  - destruct (Rlt_dec y1 0) as [Hx' | Hx'].
    + destruct (sin_cos_atan_ratio y0 y1 ltac:(lra)) as [Hs Hc].
      fold r in Hs, Hc. rewrite Rabs_left in Hs, Hc by lra.
      destruct (Rle_dec 0 y0) as [Hy0 | Hy0].
      * rewrite neg_sin, neg_cos, Hs, Hc. f_equal; field; lra.
      * destruct (sin_cos_shift_down (atan (y0 / y1))) as [Es Ec].
        rewrite Es, Ec, Hs, Hc. f_equal; field; lra.
    + assert (E1 : y1 = 0) by lra. subst y1.
      assert (Er : r = Rabs y0).
      { unfold r. replace (tt.square y0 + tt.square 0) with (Rsqr y0)
          by (unfold tt.square, Rsqr; ring).
        apply sqrt_Rsqr_abs. }
      assert (Hy0 : y0 <> 0).
      { intros ->. unfold tt.square in Hy. lra. }
      destruct (Rlt_dec 0 y0) as [Hp | Hp].
      * rewrite sin_PI2, cos_PI2, Er, Rabs_pos_eq by lra.
        f_equal; field; lra.
      * destruct (Rlt_dec y0 0) as [Hn | Hn]; [| lra].
        rewrite sin_neg, cos_neg, sin_PI2, cos_PI2, Er, Rabs_left by lra.
        f_equal; field; lra.
Qed.

End AngleNormalises.

(** Going forward after [backward] returns the pair [y] scaled to the
    unit circle, for every pair that is not zero: the angle keeps the
    direction of [y] and forgets its length. *)
Theorem Angle_forward_backward_normalises (y : R * R)
    (Hy : 0 < tt.square (fst y) + tt.square (snd y)) :
  AngleTransform.forward (AngleTransform.backward y)
  = (fst y / sqrt (tt.square (fst y) + tt.square (snd y)),
     snd y / sqrt (tt.square (fst y) + tt.square (snd y))).
Proof.
  destruct y as [y0 y1]. cbn [fst snd] in *.
  apply forward_backward_unit. exact Hy.
Qed.

Lemma Angle_forward_backward_normalises_witness :
  AngleTransform.forward (AngleTransform.backward (3, -4))
  = (fst (3, -4) / sqrt (tt.square (fst (3, -4)) + tt.square (snd (3, -4))),
     snd (3, -4) / sqrt (tt.square (fst (3, -4)) + tt.square (snd (3, -4)))).
Proof.
  apply Angle_forward_backward_normalises.
  cbn [fst snd]. unfold tt.square. lra.
Defined.

(** ** QuadLimbDarkTransform: the triangle *)

Section QuadLimbDark.

Lemma sqrt_sigmoid_range (y : R) : 0 < sqrt (tt.sigmoid y) < 1.
Proof.
  pose proof (sigmoid_range y) as [H0 H1]. split.
  - apply sqrt_lt_R0. exact H0.
  - rewrite <- sqrt_1. apply sqrt_lt_1; lra.
Qed.

End QuadLimbDark.

(** For every real pair [y], the coefficients [(u0, u1)] that [backward]
    returns satisfy [0 < u0], [0 < u0 + u1 < 1] and [0 < u0 + 2 * u1]:
    they lie inside the triangle of physical limb-darkening laws. *)
Theorem QuadLimbDark_backward_in_triangle (y : R * R) :
  let u := QuadLimbDarkTransform.backward y in
  0 < fst u /\ 0 < fst u + snd u < 1 /\ 0 < fst u + 2 * snd u.
Proof.
  cbn zeta. unfold QuadLimbDarkTransform.backward. cbn [fst snd].
  pose proof (sqrt_sigmoid_range (fst y)) as [Hs0 Hs1].
  pose proof (sigmoid_range (snd y)) as [Hq0 Hq1].
  set (s := sqrt (tt.sigmoid (fst y))) in *.
  set (q := tt.sigmoid (snd y)) in *.
  repeat split; nra.
Qed.

(** [forward] undoes [backward] at every real pair [y]. *)
Theorem QuadLimbDark_forward_backward (y : R * R) :
  QuadLimbDarkTransform.forward (QuadLimbDarkTransform.backward y) = y.
Proof.
  destruct y as [y0 y1].
  unfold QuadLimbDarkTransform.forward, QuadLimbDarkTransform.backward.
  cbn [fst snd].
  pose proof (sqrt_sigmoid_range y0) as [Hs0 Hs1].
  pose proof (sigmoid_range y0) as [Hp0 Hp1].
  assert (Hsq : sqrt (tt.sigmoid y0) * sqrt (tt.sigmoid y0) = tt.sigmoid y0)
    by (apply sqrt_def; lra).
  set (s := sqrt (tt.sigmoid y0)) in *.
  replace ((s * (2 * tt.sigmoid y1) + s * (1 - 2 * tt.sigmoid y1)) ^ 2)
    with (s * s) by ring.
  replace (0.5 * (s * (2 * tt.sigmoid y1))
           / (s * (2 * tt.sigmoid y1) + s * (1 - 2 * tt.sigmoid y1)))
    with (tt.sigmoid y1) by (replace 0.5 with (/ 2) by lra; field; lra).
  rewrite Hsq.
  change (tt.log (tt.sigmoid y0) - tt.log (1 - tt.sigmoid y0))
    with (logit (tt.sigmoid y0)).
  change (tt.log (tt.sigmoid y1) - tt.log (1 - tt.sigmoid y1))
    with (logit (tt.sigmoid y1)).
  rewrite !logit_sigmoid. reflexivity.
Qed.

(** ** RadiusImpactTransform: from the unconstrained side *)

Section RadiusImpactInverse.

Import RadiusImpactTransform.

Variables (pl pu : R) (self : t).
Hypothesis radii : 0 <= pl < pu.
Hypothesis constructed : __init__ pl pu = Ok self.

(** Branch B lies strictly above the seam [b = 1 + pl]. *)
Lemma backward_B_above_seam (r1 r2 : R) :
  0 < r1 <= Ar self -> 0 < r2 < 1 ->
  1 + pl < snd (backward_B self r1 r2).
Proof using radii constructed.
  intros Hr1 [Hr2 Hr2'].
  pose proof (sqrt_ratio_range pl pu self radii constructed r1 Hr1) as [Hs _].
  unfold backward_B. cbn [snd].
  rewrite (init_min_radius pl pu), (init_dr pl pu) by assumption.
  set (s := sqrt (r1 / Ar self)) in *.
  assert (0 < s * r2) by nra. nra.
Qed.

Lemma forward_A_backward_A (r1 r2 : R) :
  forward_A self (fst (backward_A self r1 r2)) (snd (backward_A self r1 r2))
  = (r1, r2).
Proof using radii constructed.
  pose proof (Ar_range pl pu self radii constructed) as [HA0 HA1].
  unfold forward_A, backward_A. cbn [fst snd].
  rewrite (init_min_radius pl pu), (init_dr pl pu) by assumption.
  f_equal; field; lra.
Qed.

Lemma forward_B_backward_B (r1 r2 : R) :
  0 < r1 <= Ar self -> 0 < r2 < 1 ->
  forward_B self (fst (backward_B self r1 r2)) (snd (backward_B self r1 r2))
  = (r1, r2).
Proof using radii constructed.
  intros Hr1 Hr2.
  pose proof (Ar_range pl pu self radii constructed) as [HA0 HA1].
  pose proof (sqrt_ratio_range pl pu self radii constructed r1 Hr1) as [Hs _].
  assert (Hq : sqrt (r1 / Ar self) * sqrt (r1 / Ar self) = r1 / Ar self).
  { apply sqrt_def. apply Rlt_le, Rdiv_lt_0_compat; lra. }
  unfold forward_B, backward_B. cbn [fst snd].
  rewrite (init_min_radius pl pu), (init_max_radius pl pu), (init_dr pl pu)
    by assumption.
  set (s := sqrt (r1 / Ar self)) in *.
  f_equal.
  - replace (((pu - (pu - pl) * s * (1 - r2)
               - (1 + pl + s * r2 * (pu - pl)) - (pu - pl) + 1)
              / (pu - pl)) ^ 2)
      with (s * s) by (field; lra).
    rewrite Hq. field. lra.
  - replace (pu - (pu - pl) * s * (1 - r2)
             - (1 + pl + s * r2 * (pu - pl)) - (pu - pl) + 1)
      with (- ((pu - pl) * s)) by ring.
    assert (Hd : 0 < (pu - pl) * s) by (apply Rmult_lt_0_compat; lra).
    field. lra.
Qed.

Lemma forward_backward (y : R * R) :
  tt.sigmoid (fst y) <= Ar self \/ snd (backward self y) <= 1 ->
  forward self (backward self y) = y.
Proof using radii constructed.
  intros Hdom.
  pose proof (sigmoid_range (fst y)) as [H10 H11].
  pose proof (sigmoid_range (snd y)) as H2.
  rewrite RadiusImpact_forward_logit2. revert Hdom.
  unfold backward, tt.switch, tt.gt.
  destruct (Rlt_dec (Ar self) (tt.sigmoid (fst y))) as [Hgt | Hle];
    intros Hdom.
  - destruct Hdom as [Hle | Hb]; [lra |].
    unfold tt.le. destruct (Rle_dec _ 1) as [_ | Hn]; [| contradiction].
    rewrite forward_A_backward_A. unfold logit2. cbn [fst snd].
    rewrite !logit_sigmoid. symmetry. apply surjective_pairing.
  - assert (Hr1 : 0 < tt.sigmoid (fst y) <= Ar self) by lra.
    pose proof (backward_B_above_seam _ _ Hr1 H2) as Hb.
    unfold tt.le. destruct (Rle_dec _ 1) as [Hn | _]; [lra |].
    rewrite forward_B_backward_B by assumption. unfold logit2. cbn [fst snd].
    rewrite !logit_sigmoid. symmetry. apply surjective_pairing.
Qed.

Lemma backward_A_inj (r1 r2 r1' r2' : R) :
  backward_A self r1 r2 = backward_A self r1' r2' -> r1 = r1' /\ r2 = r2'.
Proof using radii constructed.
  intros H.
  pose proof (forward_A_backward_A r1 r2) as E.
  rewrite H, forward_A_backward_A in E.
  injection E as <- <-. split; reflexivity.
Qed.

Lemma backward_inj (y y' : R * R) :
  backward self y = backward self y' -> y = y'.
Proof using radii constructed.
  intros H.
  pose proof (sigmoid_range (fst y)) as [H10 H11].
  pose proof (sigmoid_range (snd y)) as H2.
  pose proof (sigmoid_range (fst y')) as [H10' H11'].
  pose proof (sigmoid_range (snd y')) as H2'.
  assert (Hpair : tt.sigmoid (fst y) = tt.sigmoid (fst y') /\
                  tt.sigmoid (snd y) = tt.sigmoid (snd y')).
  { revert H. unfold backward, tt.switch, tt.gt.
    destruct (Rlt_dec (Ar self) (tt.sigmoid (fst y))) as [Hgt | Hle],
             (Rlt_dec (Ar self) (tt.sigmoid (fst y'))) as [Hgt' | Hle'];
      intros H.
    - apply backward_A_inj. exact H.
    - exfalso.
      destruct (backward_A_region pl pu self radii constructed
                  (tt.sigmoid (fst y)) (tt.sigmoid (snd y)))
        as [_ [_ Hb]]; [lra | exact H2 |].
      pose proof (backward_B_above_seam (tt.sigmoid (fst y'))
                    (tt.sigmoid (snd y')) ltac:(lra) H2') as Hb'.
      rewrite H in Hb. lra.
    - exfalso.
      destruct (backward_A_region pl pu self radii constructed
                  (tt.sigmoid (fst y')) (tt.sigmoid (snd y')))
        as [_ [_ Hb]]; [lra | exact H2' |].
      pose proof (backward_B_above_seam (tt.sigmoid (fst y))
                    (tt.sigmoid (snd y)) ltac:(lra) H2) as Hb'.
      rewrite H in Hb'. lra.
    - pose proof (forward_B_backward_B (tt.sigmoid (fst y))
                    (tt.sigmoid (snd y)) ltac:(lra) H2) as E.
      rewrite H, forward_B_backward_B in E by (assumption || lra).
      injection E as <- <-. split; reflexivity. }
  destruct Hpair as [E1 E2].
  apply sigmoid_inj in E1, E2.
  destruct y, y'. cbn [fst snd] in *. subst. reflexivity.
Qed.

End RadiusImpactInverse.

(** For [0 <= min_radius < max_radius], [forward] undoes [backward] at
    every [y] whose image is reached through branch B
    ([sigmoid y[0] <= Ar]) or has [b <= 1]. *)
Theorem RadiusImpact_forward_backward
    (pl pu : R) (self : RadiusImpactTransform.t) (y : R * R)
    (radii : 0 <= pl < pu)
    (constructed : RadiusImpactTransform.__init__ pl pu = Ok self)
    (Hdom : tt.sigmoid (fst y) <= RadiusImpactTransform.Ar self \/
            snd (RadiusImpactTransform.backward self y) <= 1) :
  RadiusImpactTransform.forward self (RadiusImpactTransform.backward self y)
  = y.
Proof. apply (forward_backward pl pu); assumption. Qed.

Lemma RadiusImpact_forward_backward_witness :
  exists self : RadiusImpactTransform.t,
    RadiusImpactTransform.__init__ (1 / 10) (3 / 10) = Ok self /\
    RadiusImpactTransform.forward self
      (RadiusImpactTransform.backward self (- ln 11, 0))
    = (- ln 11, 0).
Proof.
  eexists. split; [reflexivity |].
  apply (RadiusImpact_forward_backward (1 / 10) (3 / 10));
    [lra | reflexivity |].
  left. cbn [fst RadiusImpactTransform.Ar].
  rewrite sigmoid_neg_ln by lra. apply Req_le. field.
Defined.

(** With [min_radius = 0] the seam of [backward] is at [b = 1], where
    [forward] branches, and [forward] undoes [backward] at every real
    [y]. *)
Theorem RadiusImpact_forward_backward_zero_min
    (pu : R) (self : RadiusImpactTransform.t) (y : R * R)
    (Hpu : 0 < pu)
    (constructed : RadiusImpactTransform.__init__ 0 pu = Ok self) :
  RadiusImpactTransform.forward self (RadiusImpactTransform.backward self y)
  = y.
Proof.
  assert (radii : 0 <= 0 < pu) by lra.
  apply (forward_backward 0 pu self radii constructed).
  pose proof (sigmoid_range (fst y)) as [H10 H11].
  pose proof (sigmoid_range (snd y)) as H2.
  unfold RadiusImpactTransform.backward, tt.switch, tt.gt.
  destruct (Rlt_dec (RadiusImpactTransform.Ar self) (tt.sigmoid (fst y)))
    as [Hgt | Hle]; [right | left; lra].
  destruct (backward_A_region 0 pu self radii constructed
              (tt.sigmoid (fst y)) (tt.sigmoid (snd y)))
    as [_ [_ Hb]]; [lra | exact H2 |]. lra.
Qed.

Lemma RadiusImpact_forward_backward_zero_min_witness :
  exists self : RadiusImpactTransform.t,
    RadiusImpactTransform.__init__ 0 (1 / 5) = Ok self /\
    RadiusImpactTransform.forward self
      (RadiusImpactTransform.backward self (2, -3))
    = (2, -3).
Proof.
  eexists. split; [reflexivity |].
  apply (RadiusImpact_forward_backward_zero_min (1 / 5));
    [lra | reflexivity].
Defined.

(** For [0 <= min_radius < max_radius], [backward] is injective: two
    unconstrained pairs with the same image [(p, b)] are equal. *)
Theorem RadiusImpact_backward_injective
    (pl pu : R) (self : RadiusImpactTransform.t) (y y' : R * R)
    (radii : 0 <= pl < pu)
    (constructed : RadiusImpactTransform.__init__ pl pu = Ok self)
    (Heq : RadiusImpactTransform.backward self y
           = RadiusImpactTransform.backward self y') :
  y = y'.
Proof. apply (backward_inj pl pu self); assumption. Qed.

Lemma RadiusImpact_backward_injective_witness :
  exists self : RadiusImpactTransform.t,
    RadiusImpactTransform.__init__ 0 (1 / 5) = Ok self /\
    RadiusImpactTransform.backward self (1, 2)
    = RadiusImpactTransform.backward self (1, 2) /\
    (1, 2) = (1, 2) :> R * R.
Proof.
  eexists. split; [reflexivity |]. split; [reflexivity |].
  assert (radii : 0 <= 0 < 1 / 5) by lra.
  exact (RadiusImpact_backward_injective 0 (1 / 5) _ (1, 2) (1, 2)
           radii eq_refl eq_refl).
Defined.



(** ** ImpactParameterTransform: the interval *)

(** For [ror > -1], [backward] maps every real [y] into (0, 1 + ror) and
    is strictly increasing. *)
Theorem ImpactParameter_backward_range_monotone (ror : R) (Hror : -1 < ror) :
  let self := ImpactParameterTransform.__init__ ror in
  (forall y : R, 0 < ImpactParameterTransform.backward self y < 1 + ror) /\
  (forall y y' : R, y < y' ->
     ImpactParameterTransform.backward self y
     < ImpactParameterTransform.backward self y').
Proof.
  intros self. unfold ImpactParameterTransform.backward.
  cbn [ImpactParameterTransform.one_plus_ror self
       ImpactParameterTransform.__init__].
  split.
  - intros y. rewrite LogOdds_backward_sigmoid.
    pose proof (sigmoid_range y) as [H0 H1]. split; nra.
  - intros y y' Hlt. rewrite !LogOdds_backward_sigmoid.
    pose proof (sigmoid_increasing y y' Hlt). nra.
Qed.

Lemma ImpactParameter_backward_range_monotone_witness :
  0 < ImpactParameterTransform.backward (ImpactParameterTransform.__init__ 1) 0
  < 1 + 1.
Proof.
  assert (H : -1 < 1) by lra.
  exact (proj1 (ImpactParameter_backward_range_monotone 1 H) 0).
Defined.

(** For [ror > -1], [forward] undoes [backward] at every real [y]. *)
Theorem ImpactParameter_forward_backward (ror y : R) (Hror : -1 < ror) :
  let self := ImpactParameterTransform.__init__ ror in
  ImpactParameterTransform.forward self
    (ImpactParameterTransform.backward self y) = y.
Proof.
  intros self.
  unfold ImpactParameterTransform.forward, ImpactParameterTransform.backward.
  cbn [ImpactParameterTransform.one_plus_ror self
       ImpactParameterTransform.__init__].
  rewrite LogOdds_backward_sigmoid.
  replace (tt.sigmoid y * (1 + ror) / (1 + ror)) with (tt.sigmoid y)
    by (field; lra).
  pose proof (sigmoid_range y) as [H0 H1].
  unfold LogOdds.forward, tt.log, Rdiv.
  rewrite ln_mult, ln_Rinv by (try apply Rinv_0_lt_compat; lra).
  apply (logit_sigmoid y).
Qed.

Lemma ImpactParameter_forward_backward_witness :
  ImpactParameterTransform.forward (ImpactParameterTransform.__init__ 1)
    (ImpactParameterTransform.backward (ImpactParameterTransform.__init__ 1) 3)
  = 3.
Proof.
  assert (H : -1 < 1) by lra.
  exact (ImpactParameter_forward_backward 1 3 H).
Defined.

(** ** The shared logistic log-Jacobian *)

(** For [QuadLimbDarkTransform] and [RadiusImpactTransform], each entry
    of [jacobian_det y] is the logarithm of the derivative of
    [sigmoid] at that entry of [y]: the correction for the logistic step
    [sigmoid y], not for the map to [(u0, u1)] or [(p, b)] that follows
    it. *)
Theorem logistic_jacobian_det_entries (y : R * R) (d0 d1 : R)
    (H0 : derivable_pt_lim tt.sigmoid (fst y) d0)
    (H1 : derivable_pt_lim tt.sigmoid (snd y) d1) :
  QuadLimbDarkTransform.jacobian_det y = (ln d0, ln d1) /\
  RadiusImpactTransform.jacobian_det y = (ln d0, ln d1).
Proof.
  rewrite (uniqueness_limite _ _ _ _ H0 (derivable_pt_lim_sigmoid (fst y))).
  rewrite (uniqueness_limite _ _ _ _ H1 (derivable_pt_lim_sigmoid (snd y))).
  unfold QuadLimbDarkTransform.jacobian_det,
    RadiusImpactTransform.jacobian_det.
  rewrite !logistic_jacobian. split; reflexivity.
Qed.

Lemma logistic_jacobian_det_entries_witness :
  QuadLimbDarkTransform.jacobian_det (0, 1)
  = (ln (sigmoid_slope 0), ln (sigmoid_slope 1)).
Proof.
  exact (proj1 (logistic_jacobian_det_entries (0, 1) _ _
                  (derivable_pt_lim_sigmoid 0) (derivable_pt_lim_sigmoid 1))).
Defined.

(** For [0 <= min_radius < max_radius] the constructed object has
    [dr > 0] and [0 < Ar < 1]: the divisors [dr], [Ar] and [1 - Ar] of
    [forward] and [backward] are not zero, and both branches of
    [backward] are reached. *)
Theorem RadiusImpact_init_invariants
    (pl pu : R) (self : RadiusImpactTransform.t)
    (radii : 0 <= pl < pu)
    (constructed : RadiusImpactTransform.__init__ pl pu = Ok self) :
  0 < RadiusImpactTransform.dr self /\
  0 < RadiusImpactTransform.Ar self < 1 /\
  (exists y, RadiusImpactTransform.Ar self < tt.sigmoid y) /\
  (exists y, tt.sigmoid y <= RadiusImpactTransform.Ar self).
Proof.
  pose proof (Ar_range pl pu self radii constructed) as [HA0 HA1].
  split; [apply (dr_pos pl pu); assumption |].
  split; [split; assumption |].
  set (A := RadiusImpactTransform.Ar self) in *.
  split.
  - exists (logit ((A + 1) / 2)). rewrite sigmoid_logit by lra. lra.
  - exists (logit A). rewrite sigmoid_logit by lra. lra.
Qed.

Lemma RadiusImpact_init_invariants_witness :
  exists self : RadiusImpactTransform.t,
    RadiusImpactTransform.__init__ 0 (1 / 5) = Ok self /\
    0 < RadiusImpactTransform.Ar self < 1.
Proof.
  eexists. split; [reflexivity |].
  assert (radii : 0 <= 0 < 1 / 5) by lra.
  exact (proj1 (proj2 (RadiusImpact_init_invariants 0 (1 / 5) _ radii
                         eq_refl))).
Defined.
